(** * HoloCubic firmware: gesture input, brightness setters, storage, main loop

    A shallow embedding of the firmware's sensor-driven input path
    (imu.cpp, lv_port_indev.c), its brightness setters and display transfer
    (rgb_led.cpp, display.cpp), the SD-card readers and writer (sd_card.cpp)
    and the main loop (main.cpp), followed by the properties the design
    document states about them. *)

From Stdlib Require Import ZArith List String Ascii Bool Lia.
From Stdlib Require Import Init.Byte.
From Stdlib Require Import Floats.SpecFloat.
From Equations Require Import Equations.
From stdpp Require Import base list strings gmap.
Import ListNotations.

Local Open Scope Z_scope.

(* ===================================================================== *)
(** * Fixed-width integers *)
(* ===================================================================== *)

(** Conversion to a signed [bits]-wide integer: the value modulo [2^bits],
    taken in [-2^(bits-1), 2^(bits-1)). *)
Definition wrap_signed (bits x : Z) : Z :=
  (x + 2 ^ (bits - 1)) mod 2 ^ bits - 2 ^ (bits - 1).

(** [int16_t], [int] (32 bits on the ESP32), [uint8_t], [unsigned long]. *)
Definition int16 (x : Z) : Z := wrap_signed 16 x.
Definition int32 (x : Z) : Z := wrap_signed 32 x.
Definition uint8 (x : Z) : Z := x mod 2 ^ 8.
Definition uint32 (x : Z) : Z := x mod 2 ^ 32.

(* ===================================================================== *)
(** * The encoder globals and the LVGL read callback (lv_port_indev.c) *)
(* ===================================================================== *)

(** [lv_indev_state_t]: the two states the firmware assigns. *)
Inductive lv_indev_state_t : Type :=
| LV_INDEV_STATE_REL
| LV_INDEV_STATE_PR.

(** The two globals as lv_port_indev.c declares them: [int32_t encoder_diff]
    and [lv_indev_state_t encoder_state].  imu.cpp defines the same two
    names again, [encoder_diff] as [int16_t], and steps the counter at that
    type, so the values it leaves are [int16_t] values.  The two definitions
    differ in size; what a store through the wider one reaches in the linked
    firmware is a matter of memory layout, which this record of two objects
    does not describe. *)
Record Encoder : Type := mkEncoder {
  encoder_diff : Z;
  encoder_state : lv_indev_state_t
}.

(** The fields of [lv_indev_data_t] that [encoder_read] assigns.  The type
    is LVGL's: [enc_diff] is an [int16_t] there. *)
Record lv_indev_data_t : Type := mk_indev_data {
  enc_diff : Z;
  state : lv_indev_state_t
}.

(** [encoder_init]: [encoder_diff = 0; encoder_state = LV_INDEV_STATE_REL]. *)
Definition encoder_init : Encoder :=
  {| encoder_diff := 0; encoder_state := LV_INDEV_STATE_REL |}.

(** [encoder_read(indev_drv, data)]:
      data->enc_diff = encoder_diff;
      data->state = encoder_state;
      encoder_diff = 0;
      return false;
    The first assignment converts the [int32_t] global to the [int16_t]
    field.  The result is the returned flag, the data written through
    [data], and the two objects after the call. *)
Definition encoder_read (data : lv_indev_data_t) (e : Encoder)
  : bool * lv_indev_data_t * Encoder :=
  let data1 := {| enc_diff := int16 (encoder_diff e); state := state data |} in
  let data2 := {| enc_diff := enc_diff data1; state := encoder_state e |} in
  let e' := {| encoder_diff := 0; encoder_state := encoder_state e |} in
  (false, data2, e').

(* ===================================================================== *)
(** * The IMU gesture translator (imu.cpp) *)
(* ===================================================================== *)

Module IMU.

(** The six [int16_t] values [imu.getMotion6] stores through its pointers;
    the comparisons of [update] promote them to [int]. *)
Record Motion6 : Type := mkMotion6 {
  m_ax : Z; m_ay : Z; m_az : Z;
  m_gx : Z; m_gy : Z; m_gz : Z
}.

(** The members of class [IMU] that [update] reads and writes.  The class
    declaration (imu.h) is not among the sources: [flag] is used as a truth
    value and assigned 0 and 1, [last_update_time] is subtracted from
    [millis()]. *)
Record t : Type := mk {
  ax : Z; ay : Z; az : Z;
  gx : Z; gy : Z; gz : Z;
  flag : Z;
  last_update_time : Z
}.

(** What the hardware delivers during one call of [update]: the sample read
    by [getMotion6], the value of [millis()] in the gate test, and the value
    of [millis()] stored as the new time stamp. *)
Record Call : Type := mkCall {
  motion : Motion6;
  millis_gate : Z;
  millis_stamp : Z
}.

(** The object together with the two globals it writes. *)
Record Machine : Type := mkMachine {
  imu : t;
  enc : Encoder
}.

(** [imu.getMotion6(&ax, &ay, &az, &gx, &gy, &gz)]. *)
Definition getMotion6 (m : Motion6) (s : t) : t :=
  {| ax := m_ax m; ay := m_ay m; az := m_az m;
     gx := m_gx m; gy := m_gy m; gz := m_gz m;
     flag := flag s;
     last_update_time := last_update_time s |}.

(** [millis() - last_update_time > interval]: [millis()] is an
    [unsigned long] (32 bits), so the subtraction is carried out modulo
    [2^32] and [interval], an [int], is converted to [unsigned long] for the
    comparison. *)
Definition gate_open (now interval : Z) (s : t) : bool :=
  uint32 interval <? uint32 (now - last_update_time s).

(** The rotation branch:
      if (ay > 3000 && flag)       { encoder_diff--; flag = 0; }
      else if (ay < -3000 && flag) { encoder_diff++; flag = 0; }
      else                         { flag = 1; }
    on the [int16_t] global [encoder_diff]; the result is the new
    [encoder_diff] and the new [flag]. *)
Definition rotate (ay flag diff : Z) : Z * Z :=
  if (3000 <? ay) && negb (flag =? 0) then (int16 (diff - 1), 0)
  else if (ay <? -3000) && negb (flag =? 0) then (int16 (diff + 1), 0)
  else (diff, 1).

(** The press branch:
      if (ax > 10000) encoder_state = LV_INDEV_STATE_PR;
      else            encoder_state = LV_INDEV_STATE_REL; *)
Definition press (ax : Z) : lv_indev_state_t :=
  if 10000 <? ax then LV_INDEV_STATE_PR else LV_INDEV_STATE_REL.

(** [IMU::update(interval)]. *)
Definition update (c : Call) (interval : Z) (s : Machine) : Machine :=
  let i := getMotion6 (motion c) (imu s) in
  if gate_open (millis_gate c) interval i then
    let '(diff, fl) := rotate (ay i) (flag i) (encoder_diff (enc s)) in
    {| imu := {| ax := ax i; ay := ay i; az := az i;
                 gx := gx i; gy := gy i; gz := gz i;
                 flag := fl;
                 last_update_time := millis_stamp c |};
       enc := {| encoder_diff := diff; encoder_state := press (ax i) |} |}
  else
    {| imu := i; enc := enc s |}.

(** Successive calls of [update], as the main loop issues them. *)
Fixpoint run (interval : Z) (cs : list Call) (s : Machine) : Machine :=
  match cs with
  | [] => s
  | c :: cs' => run interval cs' (update c interval s)
  end.

(** Whether each call of the sequence passes the gate, in the state the
    calls before it have left. *)
Fixpoint all_gated (interval : Z) (cs : list Call) (s : Machine) : bool :=
  match cs with
  | [] => true
  | c :: cs' =>
      gate_open (millis_gate c) interval (imu s)
      && all_gated interval cs' (update c interval s)
  end.

(** What a reader of [encoder_diff] sees of one call: the counter went down
    by one, up by one, or stayed. *)
Inductive rotation : Type := NoEvent | RotateA | RotateB.

Definition observe (before after : Z) : rotation :=
  if after =? before then NoEvent
  else if after =? int16 (before - 1) then RotateA
  else if after =? int16 (before + 1) then RotateB
  else NoEvent.

(** The event of each call of a sequence. *)
Fixpoint events (interval : Z) (cs : list Call) (s : Machine) : list rotation :=
  match cs with
  | [] => []
  | c :: cs' =>
      let s' := update c interval s in
      observe (encoder_diff (enc s)) (encoder_diff (enc s'))
        :: events interval cs' s'
  end.

(** Whether a call produced a rotation event. *)
Definition fired (e : rotation) : bool :=
  match e with NoEvent => false | _ => true end.

(** The number of rotation events among the events of a sequence. *)
Definition rotations (es : list rotation) : nat :=
  length (List.filter fired es).

(** A call that delivers lateral acceleration [a] (all other axes 0) at
    time [now]. *)
Definition lateral (a now : Z) : Call :=
  {| motion := {| m_ax := 0; m_ay := a; m_az := 0;
                  m_gx := 0; m_gy := 0; m_gz := 0 |};
     millis_gate := now; millis_stamp := now |}.

(** An armed translator at time 0 with the encoder as [encoder_init]
    leaves it. *)
Definition armed0 : Machine :=
  {| imu := {| ax := 0; ay := 0; az := 0; gx := 0; gy := 0; gz := 0;
               flag := 1; last_update_time := 0 |};
     enc := encoder_init |}.

(** One tilt past the threshold held for three samples, then back to
    neutral, sampled every 201 ms. *)
Definition held_tilt : list Call :=
  [lateral 3500 201; lateral 3600 402; lateral 3700 603; lateral 0 804].

(** The stream of the design document's end-to-end scenario, sampled every
    201 ms. *)
Definition scenario : list Call :=
  [lateral 0 201; lateral 3500 402; lateral 3600 603;
   lateral 0 804; lateral (-3700) 1005; lateral 0 1206].

(** A call 100 ms after the last accepted update, delivering a forward
    acceleration of 12000. *)
Definition early_call : Call :=
  {| motion := {| m_ax := 12000; m_ay := 3500; m_az := 0;
                  m_gx := 0; m_gy := 0; m_gz := 0 |};
     millis_gate := 100; millis_stamp := 100 |}.

(** The getters: each returns the stored [int16_t] member. *)
Definition getAccelX (s : t) : Z := ax s.
Definition getAccelY (s : t) : Z := ay s.
Definition getAccelZ (s : t) : Z := az s.
Definition getGyroX (s : t) : Z := gx s.
Definition getGyroY (s : t) : Z := gy s.
Definition getGyroZ (s : t) : Z := gz s.

(** What an event adds to the counter, and the sum over a sequence of
    events. *)
Definition delta (e : rotation) : Z :=
  match e with NoEvent => 0 | RotateA => -1 | RotateB => 1 end.

Definition net (es : list rotation) : Z :=
  fold_right (fun e acc => delta e + acc) 0 es.

End IMU.

(* ===================================================================== *)
(** * Single-precision floats (the [float] of the brightness setters) *)
(* ===================================================================== *)

Module F32.

(** IEEE 754 binary32: 24 bits of mantissa, infinities at exponent 128. *)
Definition prec : Z := 24.
Definition emax : Z := 128.

Definition float : Type := spec_float.

(** Conversion of an [int] to [float] (round to nearest even). *)
Definition of_int (n : Z) : float := binary_normalize prec emax n 0 false.

Definition ltb (x y : float) : bool := SFltb x y.
Definition sub (x y : float) : float := SFsub prec emax x y.
Definition mul (x y : float) : float := SFmul prec emax x y.

(** Conversion of a [float] to an integer: the fractional part is
    discarded.  C leaves the conversion of a NaN or an infinity undefined;
    it is 0 here. *)
Definition to_int (x : float) : Z :=
  match x with
  | S754_finite s m e =>
      let v := if 0 <=? e then Z.pos m * 2 ^ e else Z.pos m / 2 ^ (- e) in
      if s then - v else v
  | _ => 0
  end.

(** Arduino's macro
      constrain(amt,low,high) ((amt)<(low)?(low):((amt)>(high)?(high):(amt)))
    at a [float] amount and [int] bounds: the bounds are converted to
    [float] for the comparisons and for the result. *)
Definition constrain (amt : float) (low high : Z) : float :=
  if ltb amt (of_int low) then of_int low
  else if ltb (of_int high) amt then of_int high
  else amt.

(** The literals of the design document's examples. *)
Definition zero : float := S754_zero false.
Definition one : float := S754_finite false 8388608 (-23).
Definition one_and_a_half : float := S754_finite false 12582912 (-23).
Definition minus_point_two : float := S754_finite true 13421773 (-26).
Definition point_one : float := S754_finite false 13421773 (-27).

End F32.

(* ===================================================================== *)
(** * The RGB LEDs (rgb_led.cpp) *)
(* ===================================================================== *)

Module Pixel.

(** FastLED's [CRGB]: three [uint8_t] components. *)
Record CRGB : Type := mkCRGB { red : Z; green : Z; blue : Z }.

(** [CRGB(r, g, b)] at [int] arguments: each is converted to [uint8_t]. *)
Definition CRGB_of (r g b : Z) : CRGB :=
  {| red := uint8 r; green := uint8 g; blue := uint8 b |}.

(** The number of LEDs.  The macro is defined in rgb_led.h, which is not
    among the sources; the header comment of rgb_led.cpp gives the count as
    2, and [setup] addresses LEDs 0 and 1. *)
Definition RGB_LED_NUM : nat := 2.

(** The global array [color_buffers], FastLED's global brightness, and the
    frames [FastLED.show()] has sent to the LEDs (latest first), each
    with the brightness it was sent at. *)
Record t : Type := mk {
  color_buffers : list CRGB;
  brightness : Z;
  shown : list (Z * list CRGB)
}.

(** [FastLED.show()]. *)
Definition show (s : t) : t :=
  {| color_buffers := color_buffers s;
     brightness := brightness s;
     shown := (brightness s, color_buffers s) :: shown s |}.

(** The zero-initialised global array and [Pixel::init]:
    [FastLED.setBrightness(200)]. *)
Definition init : t :=
  {| color_buffers := replicate RGB_LED_NUM (mkCRGB 0 0 0);
     brightness := 200;
     shown := [] |}.

(** [Pixel::setRGB(id, r, g, b)]:
      color_buffers[id] = CRGB(r, g, b);
      FastLED.show();
    The source does not test [id]; a write outside the array is undefined
    in C and is [None] here. *)
Definition setRGB (id r g b : Z) (s : t) : option t :=
  if (0 <=? id) && (id <? Z.of_nat (length (color_buffers s))) then
    Some (show {| color_buffers :=
                    <[Z.to_nat id := CRGB_of r g b]> (color_buffers s);
                  brightness := brightness s;
                  shown := shown s |})
  else None.

(** [Pixel::setBrightness(duty)]:
      duty = constrain(duty, 0, 1);
      FastLED.setBrightness((uint8_t)(255 * duty));
      FastLED.show(); *)
Definition setBrightness (duty : F32.float) (s : t) : t :=
  let duty := F32.constrain duty 0 1 in
  show {| color_buffers := color_buffers s;
          brightness := uint8 (F32.to_int (F32.mul (F32.of_int 255) duty));
          shown := shown s |}.

(** The LED calls of [setup]:
      rgb.setBrightness(0.1).setRGB(0, 0, 122, 204).setRGB(1, 0, 122, 204); *)
Definition setup_leds (s : t) : option t :=
  match setRGB 0 0 122 204 (setBrightness F32.point_one s) with
  | Some s1 => setRGB 1 0 122 204 s1
  | None => None
  end.

End Pixel.

(* ===================================================================== *)
(** * The backlight (display.cpp) *)
(* ===================================================================== *)

Module Display.

(** The PWM peripheral: the [ledcWrite(channel, duty)] calls issued so far,
    latest first. *)
Definition ledc : Type := list (Z * Z).

(** [Display::setBackLight(duty)]:
      duty = constrain(duty, 0, 1);
      duty = 1 - duty;
      ledcWrite(LCD_BL_PWM_CHANNEL, (int)(duty * 255));
    [LCD_BL_PWM_CHANNEL] is defined in display.h, which is not among the
    sources, and is a parameter here.  [ledcWrite] takes its duty as a
    [uint32_t]. *)
Definition setBackLight (LCD_BL_PWM_CHANNEL : Z) (duty : F32.float)
    (hw : ledc) : ledc :=
  let duty := F32.constrain duty 0 1 in
  let duty := F32.sub (F32.of_int 1) duty in
  (LCD_BL_PWM_CHANNEL,
   uint32 (int32 (F32.to_int (F32.mul duty (F32.of_int 255))))) :: hw.

(** [Display::routine]: [lv_task_handler()], which runs LVGL's tasks and
    through them the callbacks registered with it.  Of these [encoder_read]
    acts on the encoder globals: [reads] lists the data structures LVGL
    passes to it, one for each call it makes this time (none when the input
    task is not due).  What LVGL draws goes through [my_disp_flush] to the
    display. *)
Definition routine (reads : list lv_indev_data_t) (e : Encoder) : Encoder :=
  fold_left (fun e data => (encoder_read data e).2) reads e.

(** [lv_area_t]: the corners of the rectangle to refresh, as [int16_t]
    coordinates. *)
Record lv_area_t : Type := mk_area { x1 : Z; y1 : Z; x2 : Z; y2 : Z }.

(** What [my_disp_flush] asks of the display driver and of LVGL, in the
    order of the calls. *)
Inductive flush_op : Type :=
| startWrite
| setAddrWindow (x y w h : Z)
| pushColors (data : list Z) (swap : bool)
| endWrite
| lv_disp_flush_ready.

(** [my_disp_flush(disp, area, color_p)]:
      uint32_t w = (area->x2 - area->x1 + 1);
      uint32_t h = (area->y2 - area->y1 + 1);
      tft.startWrite();
      tft.setAddrWindow(area->x1, area->y1, w, h);
      tft.pushColors(&color_p->full, w * h, true);
      tft.endWrite();
      lv_disp_flush_ready(disp);
    [setAddrWindow] takes [int32_t] arguments and [pushColors] a
    [uint32_t] length.  [color_p] is the pixel buffer from the pointer on;
    the result is [None] when [w * h] pixels are more than it holds (a read
    past its end).  The calls are appended to those made before. *)
Definition my_disp_flush (area : lv_area_t) (color_p : list Z)
    (log : list flush_op) : option (list flush_op) :=
  let w := uint32 (x2 area - x1 area + 1) in
  let h := uint32 (y2 area - y1 area + 1) in
  let len := uint32 (w * h) in
  if len <=? Z.of_nat (length color_p) then
    Some (log ++ [startWrite;
                  setAddrWindow (x1 area) (y1 area) (int32 w) (int32 h);
                  pushColors (take (Z.to_nat len) color_p) true;
                  endWrite;
                  lv_disp_flush_ready])
  else None.

(** The number of completion signals among the calls made. *)
Definition completions (log : list flush_op) : nat :=
  length (List.filter
            (fun o => match o with lv_disp_flush_ready => true | _ => false end)
            log).

(** The pixels handed to the display, over all the calls made. *)
Definition pixels_pushed (log : list flush_op) : nat :=
  fold_right (fun o acc =>
                match o with
                | pushColors data _ => (length data + acc)%nat
                | _ => acc
                end) 0%nat log.

End Display.

(* ===================================================================== *)
(** * The SD card reader (sd_card.cpp) *)
(* ===================================================================== *)

Module SdCard.

(** The card: the files that [SD.open] finds, by path. *)
Abbreviation card := (gmap string (list byte)).

(** An open [File]: its content and the read position. *)
Record File : Type := mkFile { content : list byte; pos : nat }.

(** What [readBinFromSd] prints on the serial port. *)
Inductive message : Type :=
| Reading (path : string)
| FileSize (flen : nat)
| ReadDone (flen : nat)
| CannotOpen.

(** [SD.open(path)]: a file positioned at its start, or a [File] that tests
    false. *)
Definition open (sd : card) (path : string) : option File :=
  match sd !! path with
  | Some bytes => Some {| content := bytes; pos := 0 |}
  | None => None
  end.

(** Storing [data] at offset [off] of a buffer; [None] when the store would
    leave the buffer (undefined in C). *)
Definition store (off : nat) (data buf : list byte) : option (list byte) :=
  if (off + length data <=? length buf)%nat then
    Some (take off buf ++ data ++ drop (off + length data) buf)
  else None.

(** [file.read(bufPtr, toRead)]: copies up to [toRead] bytes from the read
    position to the buffer at offset [off] and advances the position. *)
Definition read (f : File) (off toRead : nat) (buf : list byte)
  : option (File * list byte) :=
  let data := take toRead (drop (pos f) (content f)) in
  match store off data buf with
  | Some buf' =>
      Some ({| content := content f; pos := (pos f + length data)%nat |}, buf')
  | None => None
  end.

(** The loop of [readBinFromSd]:
      while (len) {
        size_t toRead = len;
        if (toRead > 512) toRead = 512;
        file.read(bufPtr, toRead);
        bufPtr += toRead;
        len -= toRead;
      }
    with [bufPtr] as an offset into the destination. *)
Equations? read_loop (len : nat) (f : File) (off : nat) (buf : list byte)
  : option (list byte) by wf len lt :=
  read_loop 0 f off buf := Some buf;
  read_loop (S n) f off buf :=
    let toRead := if (512 <? S n)%nat then 512%nat else S n in
    match read f off toRead buf with
    | Some (f', buf') => read_loop (S n - toRead) f' (off + toRead)%nat buf'
    | None => None
    end.
Proof.
  destruct (512 <? S n)%nat; lia.
Qed.

(** [SdCard::readBinFromSd(path, buf)]: what is printed, and the destination
    after the call ([None] when a store left the buffer). *)
Definition readBinFromSd (sd : card) (path : string) (buf : list byte)
  : list message * option (list byte) :=
  match open sd path with
  | Some file =>
      let len := length (content file) in
      let flen := len in
      ([Reading path; FileSize flen; ReadDone flen],
       read_loop len file 0 buf)
  | None => ([Reading path; CannotOpen], Some buf)
  end.

(** The character tests and the [String] operations that [readFileLine]
    uses: ['\n'], C's [isspace], the characters of a C string up to its
    first NUL as the [String] constructor takes them, and [String::trim], which
    drops the white space at both ends. *)
Definition is_newline (c : byte) : bool := Byte.eqb c "010"%byte.

Definition isspace (c : byte) : bool :=
  Byte.eqb c " "%byte || Byte.eqb c "009"%byte || Byte.eqb c "010"%byte
  || Byte.eqb c "011"%byte || Byte.eqb c "012"%byte || Byte.eqb c "013"%byte.

Fixpoint c_string (l : list byte) : list byte :=
  match l with
  | [] => []
  | c :: l' => if Byte.eqb c "000"%byte then [] else c :: c_string l'
  end.

Fixpoint skip_space (l : list byte) : list byte :=
  match l with
  | [] => []
  | c :: l' => if isspace c then skip_space l' else l
  end.

Definition trim (l : list byte) : list byte :=
  rev (skip_space (rev (skip_space l))).

(** The two fixed results of [readFileLine]. *)
Definition failed_to_open : list byte :=
  list_byte_of_string "Failed to open file for reading".

Definition error_parameter : list byte :=
  list_byte_of_string "error parameter!".

(** What [readFileLine] prints on the serial port: the path and the line
    number at the start, and the line number it reports at the end. *)
Inductive line_message : Type :=
| ReadingLine (path : string) (num : Z)
| LineRead (num : Z).

(** The loop of [readFileLine] over the bytes still to be read:
      while (file.available()) {
        char c = file.read();
        if (c == '\n') {
          num--;
          if (num == 0) {
            *(p++) = '\0';
            String s(buf);
            s.trim();
            file.close();
            Serial.printf("...", (num + 1));
            return s;
          }
        }
        else if (num == 1) { *(p++) = c; }
      }
      file.close();
      return String("error parameter!");
    [stored] holds the characters written to the member [buf] so far
    ([p] is [buf + length stored]) and [cap] is the size of [buf], which
    sd_card.h declares and which is a parameter here; a store at or past
    [cap] leaves the buffer (undefined in C) and is [None].  The result is
    what the loop prints and the [String] returned. *)
Fixpoint line_loop (cap : nat) (rest : list byte) (num : Z)
    (stored : list byte) : option (list line_message * list byte) :=
  match rest with
  | [] => Some ([], error_parameter)
  | c :: rest' =>
      if is_newline c then
        let num := int32 (num - 1) in
        if num =? 0 then
          if (length stored <? cap)%nat
          then Some ([LineRead (int32 (num + 1))],
                     trim (c_string (stored ++ ["000"%byte])))
          else None
        else line_loop cap rest' num stored
      else if num =? 1 then
        if (length stored <? cap)%nat
        then line_loop cap rest' num (stored ++ [c])
        else None
      else line_loop cap rest' num stored
  end.

(** [SdCard::readFileLine(path, num)]: what is printed and the returned
    [String] ([None] when a store left [buf]). *)
Definition readFileLine (cap : nat) (sd : card) (path : string) (num : Z)
  : option (list line_message * list byte) :=
  match open sd path with
  | Some file =>
      match line_loop cap (content file) num [] with
      | Some (printed, s) => Some (ReadingLine path num :: printed, s)
      | None => None
      end
  | None => Some ([ReadingLine path num], failed_to_open)
  end.

(** A text of newline-terminated lines. *)
Definition unlines (lines : list (list byte)) : list byte :=
  concat (map (fun l => l ++ ["010"%byte]) lines).

(** The number of newline characters of a text. *)
Definition newlines (text : list byte) : nat :=
  length (List.filter is_newline text).

(** What [writeBinToSd] prints on the serial port. *)
Inductive write_message : Type :=
| Writing (path : string)
| CannotOpenForWrite
| WriteDone.

(** [file.write(buf, 512)] on a card with [room] free bytes: the first 512
    bytes of [buf] are appended to the file as far as the room allows;
    [None] when [buf] holds fewer than 512 bytes (a read past its end,
    undefined in C).  The result is the file and the room left. *)
Definition write_block (buf file : list byte) (room : nat)
  : option (list byte * nat) :=
  if (512 <=? length buf)%nat then
    Some (file ++ take room (take 512 buf), room - 512)%nat
  else None.

(** The loop [for (i = 0; i < 2048; i++) file.write(buf, 512);] with [n]
    iterations to go. *)
Fixpoint write_blocks (n : nat) (buf file : list byte) (room : nat)
  : option (list byte * nat) :=
  match n with
  | O => Some (file, room)
  | S n' =>
      match write_block buf file room with
      | Some (file', room') => write_blocks n' buf file' room'
      | None => None
      end
  end.

(** [SdCard::writeBinToSd(path, buf)].  [opens] is whether
    [SD.open(path, FILE_WRITE)] yields a file; it then starts empty
    (the ESP32 library opens with mode "w").  The result is what is
    printed and the card after the call ([None] when [buf] was read past
    its end). *)
Definition writeBinToSd (opens : bool) (room : nat) (sd : card)
    (path : string) (buf : list byte)
  : list write_message * option card :=
  if opens then
    match write_blocks 2048 buf [] room with
    | Some (file, _) => ([Writing path; WriteDone], Some (<[path := file]> sd))
    | None => ([Writing path; WriteDone], None)
    end
  else ([Writing path; CannotOpenForWrite], Some sd).

(** A configuration file as [setup] reads it: a first line with white
    space around the name and a carriage return before the newline, and a
    second line without a newline at its end. *)
Definition wifi_txt : list byte :=
  list_byte_of_string " HoloNet" ++ ["013"%byte; "010"%byte]
  ++ list_byte_of_string "secret".

Definition wifi_card : card := {[ "/wifi.txt"%string := wifi_txt ]}.

End SdCard.

(* ===================================================================== *)
(** * The main loop (main.cpp) *)
(* ===================================================================== *)

Module Main.

(** The globals [frame_id] and [buf] of main.cpp, the gesture translator
    [mpu] with the encoder globals, and the lines printed on the serial
    port. *)
Record t : Type := mk {
  frame_id : Z;
  buf : string;
  mpu : IMU.Machine;
  serial : list string
}.

(** What one iteration of [loop] meets: the encoder reads that
    [lv_task_handler] makes, and what the hardware delivers to
    [mpu.update]. *)
Record Iteration : Type := mkIteration {
  reads : list lv_indev_data_t;
  call : IMU.Call
}.

(** [loop]:
      screen.routine();
      mpu.update(200);
      Serial.println("System running...");
    These three statements are the whole body.  The lines after them that
    would format a frame path into [buf], hand it to [lv_img_set_src], step
    [frame_id] and wrap it at 138 are comments, not statements. *)
Definition loop (it : Iteration) (s : t) : t :=
  let e := Display.routine (reads it) (IMU.enc (mpu s)) in
  let m := IMU.update (call it) 200
             {| IMU.imu := IMU.imu (mpu s); IMU.enc := e |} in
  {| frame_id := frame_id s;
     buf := buf s;
     mpu := m;
     serial := serial s ++ ["System running..."%string] |}.

(** Successive iterations. *)
Fixpoint run (its : list Iteration) (s : t) : t :=
  match its with
  | [] => s
  | it :: its' => run its' (loop it s)
  end.




End Main.

(* ===================================================================== *)
(** * Sensor initialisation (imu.cpp) *)
(* ===================================================================== *)

Module Sensor.

(** The sensor as [IMU::init] sees it: the answer of the [k]-th call of
    [imu.testConnection()], counted from 0. *)
Definition sensor : Type := nat -> bool.

(** The loop [while (!imu.testConnection());] from probe number [k] on,
    cut off after [fuel] probes: [Some n] when the loop is left after the
    [n]-th probe, [None] when it is still spinning. *)
Fixpoint wait_connection (fuel : nat) (conn : sensor) (k : nat) : option nat :=
  match fuel with
  | O => None
  | S fuel' =>
      if conn k then Some (S k) else wait_connection fuel' conn (S k)
  end.

(** [IMU::init]: the bus set-up, the wait for the sensor, and
    [imu.initialize()].  The function is [void]: when it returns, the result
    is the number of probes it took, and there is no other outcome. *)
Definition init (fuel : nat) (conn : sensor) : option nat :=
  wait_connection fuel conn 0.

(** A sensor that never acknowledges, and one that acknowledges the third
    probe. *)
Definition absent : sensor := fun _ => false.
Definition late : sensor := fun k => (2 <=? k)%nat.

End Sensor.

(* ===================================================================== *)
(** * Properties: fixed-width integers *)
(* ===================================================================== *)

Section Integers.

Lemma int16_unfold (x : Z) : int16 x = (x + 32768) mod 65536 - 32768.
Proof. reflexivity. Qed.

Lemma int32_unfold (x : Z) :
  int32 x = (x + 2147483648) mod 4294967296 - 2147483648.
Proof. reflexivity. Qed.

(** A value of the type is left as it is. *)
Lemma int16_small (x : Z) : -32768 <= x < 32768 -> int16 x = x.
Proof. intros Hx. rewrite int16_unfold. Z.div_mod_to_equations. lia. Qed.

Lemma int32_small (x : Z) : -2147483648 <= x < 2147483648 -> int32 x = x.
Proof. intros Hx. rewrite int32_unfold. Z.div_mod_to_equations. lia. Qed.

(** A step of the 16-bit counter never lands on the value it left, and a
    step down and a step up land on different values. *)
Lemma int16_pred_neq (d : Z) : int16 (d - 1) <> d.
Proof. rewrite int16_unfold. Z.div_mod_to_equations. lia. Qed.

Lemma int16_succ_neq (d : Z) : int16 (d + 1) <> d.
Proof. rewrite int16_unfold. Z.div_mod_to_equations. lia. Qed.

Lemma int16_succ_neq_pred (d : Z) : int16 (d + 1) <> int16 (d - 1).
Proof. rewrite !int16_unfold. Z.div_mod_to_equations. lia. Qed.

End Integers.

(* ===================================================================== *)
(** * Properties: the encoder read callback *)
(* ===================================================================== *)

Section EncoderRead.



End EncoderRead.

(* ===================================================================== *)
(** * Properties: the gesture translator *)
(* ===================================================================== *)

Section Gesture.

Import IMU.

(** The gate looks at [last_update_time] only, which the sensor read does
    not touch. *)
Lemma gate_open_getMotion6 (now interval : Z) (m : Motion6) (s : IMU.t) :
  gate_open now interval (getMotion6 m s) = gate_open now interval s.
Proof. reflexivity. Qed.

(** A call that passes the gate. *)
Lemma update_gated (c : Call) (interval : Z) (s : Machine) :
  gate_open (millis_gate c) interval (imu s) = true ->
  update c interval s =
    {| imu := {| ax := m_ax (motion c); ay := m_ay (motion c);
                 az := m_az (motion c); gx := m_gx (motion c);
                 gy := m_gy (motion c); gz := m_gz (motion c);
                 flag := (rotate (m_ay (motion c)) (flag (imu s))
                            (encoder_diff (enc s))).2;
                 last_update_time := millis_stamp c |};
       enc := {| encoder_diff := (rotate (m_ay (motion c)) (flag (imu s))
                                    (encoder_diff (enc s))).1;
                 encoder_state := press (m_ax (motion c)) |} |}.
Proof.
  intros Hg. unfold update. rewrite gate_open_getMotion6, Hg. cbn.
  destruct (rotate _ _ _); reflexivity.
Qed.

(** A call that does not pass the gate. *)
Lemma update_not_gated (c : Call) (interval : Z) (s : Machine) :
  gate_open (millis_gate c) interval (imu s) = false ->
  update c interval s
    = {| imu := getMotion6 (motion c) (imu s); enc := enc s |}.
Proof.
  intros Hg. unfold update. rewrite gate_open_getMotion6, Hg. reflexivity.
Qed.

(** The three branches of the rotation test. *)
Lemma rotate_fire_down (a fl d : Z) :
  3000 < a -> fl <> 0 -> rotate a fl d = (int16 (d - 1), 0).
Proof.
  intros Ha Hf. unfold rotate.
  destruct (Z.ltb_spec 3000 a); [|lia].
  destruct (Z.eqb_spec fl 0); [contradiction|]. reflexivity.
Qed.

Lemma rotate_fire_up (a fl d : Z) :
  a < -3000 -> fl <> 0 -> rotate a fl d = (int16 (d + 1), 0).
Proof.
  intros Ha Hf. unfold rotate.
  destruct (Z.ltb_spec 3000 a); [lia|].
  destruct (Z.ltb_spec a (-3000)); [|lia].
  destruct (Z.eqb_spec fl 0); [contradiction|]. reflexivity.
Qed.

Lemma rotate_neutral (a fl d : Z) :
  -3000 <= a <= 3000 -> rotate a fl d = (d, 1).
Proof.
  intros Ha. unfold rotate.
  destruct (Z.ltb_spec 3000 a); [lia|].
  destruct (Z.ltb_spec a (-3000)); [lia|]. reflexivity.
Qed.

(** With the flag down the last branch is taken whatever the acceleration:
    the flag goes up again and the counter stays. *)
Lemma rotate_unarmed (a d : Z) : rotate a 0 d = (d, 1).
Proof.
  unfold rotate. cbn. rewrite !andb_false_r. reflexivity.
Qed.

(** What a call that passes the gate does to the counter and the flag, in
    each of the four situations. *)
Lemma gated_down (c : Call) (interval : Z) (s : Machine) :
  gate_open (millis_gate c) interval (imu s) = true ->
  3000 < m_ay (motion c) -> flag (imu s) <> 0 ->
  encoder_diff (enc (update c interval s)) = int16 (encoder_diff (enc s) - 1)
  /\ flag (imu (update c interval s)) = 0.
Proof.
  intros Hg Ha Hf. rewrite (update_gated _ _ _ Hg). cbn.
  rewrite (rotate_fire_down _ _ _ Ha Hf). split; reflexivity.
Qed.

Lemma gated_up (c : Call) (interval : Z) (s : Machine) :
  gate_open (millis_gate c) interval (imu s) = true ->
  m_ay (motion c) < -3000 -> flag (imu s) <> 0 ->
  encoder_diff (enc (update c interval s)) = int16 (encoder_diff (enc s) + 1)
  /\ flag (imu (update c interval s)) = 0.
Proof.
  intros Hg Ha Hf. rewrite (update_gated _ _ _ Hg). cbn.
  rewrite (rotate_fire_up _ _ _ Ha Hf). split; reflexivity.
Qed.

Lemma gated_neutral (c : Call) (interval : Z) (s : Machine) :
  gate_open (millis_gate c) interval (imu s) = true ->
  -3000 <= m_ay (motion c) <= 3000 ->
  encoder_diff (enc (update c interval s)) = encoder_diff (enc s)
  /\ flag (imu (update c interval s)) = 1.
Proof.
  intros Hg Ha. rewrite (update_gated _ _ _ Hg). cbn.
  rewrite (rotate_neutral _ _ _ Ha). split; reflexivity.
Qed.

Lemma gated_unarmed (c : Call) (interval : Z) (s : Machine) :
  gate_open (millis_gate c) interval (imu s) = true ->
  flag (imu s) = 0 ->
  encoder_diff (enc (update c interval s)) = encoder_diff (enc s)
  /\ flag (imu (update c interval s)) = 1.
Proof.
  intros Hg Hf. rewrite (update_gated _ _ _ Hg). cbn.
  rewrite Hf, rotate_unarmed. split; reflexivity.
Qed.

Lemma observe_same (d : Z) : observe d d = NoEvent.
Proof. unfold observe. rewrite Z.eqb_refl. reflexivity. Qed.

Lemma observe_down (d : Z) : observe d (int16 (d - 1)) = RotateA.
Proof.
  unfold observe.
  destruct (Z.eqb_spec (int16 (d - 1)) d) as [E|_];
    [exfalso; exact (int16_pred_neq d E)|].
  rewrite Z.eqb_refl. reflexivity.
Qed.

Lemma observe_up (d : Z) : observe d (int16 (d + 1)) = RotateB.
Proof.
  unfold observe.
  destruct (Z.eqb_spec (int16 (d + 1)) d) as [E|_];
    [exfalso; exact (int16_succ_neq d E)|].
  destruct (Z.eqb_spec (int16 (d + 1)) (int16 (d - 1))) as [E|_];
    [exfalso; exact (int16_succ_neq_pred d E)|].
  rewrite Z.eqb_refl. reflexivity.
Qed.

End Gesture.

Section GestureClaims.

Import IMU.

(** C9.  On every call that passes the gate the button state becomes
    pressed exactly when the forward acceleration of the sample exceeds
    10000 and released otherwise; the armed flag and the rotation counter
    play no part: two machines that differ in them (and in anything else)
    get the same button state from the same call. *)
Theorem press_is_level_triggered (c : Call) (interval : Z) (s s' : Machine) :
  gate_open (millis_gate c) interval (imu s) = true ->
  gate_open (millis_gate c) interval (imu s') = true ->
  (encoder_state (enc (update c interval s)) = LV_INDEV_STATE_PR
     <-> 10000 < m_ax (motion c))
  /\ (encoder_state (enc (update c interval s)) = LV_INDEV_STATE_REL
        <-> m_ax (motion c) <= 10000)
  /\ encoder_state (enc (update c interval s))
     = encoder_state (enc (update c interval s')).
Proof.
  intros Hs Hs'. rewrite (update_gated _ _ _ Hs), (update_gated _ _ _ Hs').
  cbn. unfold press.
  destruct (Z.ltb_spec 10000 (m_ax (motion c)));
    repeat split; intros; try lia; try discriminate; reflexivity.
Qed.

Lemma press_is_level_triggered_witness :
  encoder_state (enc (update (lateral 0 201) 200 armed0)) = LV_INDEV_STATE_REL
  <-> m_ax (motion (lateral 0 201)) <= 10000.
Proof.
  apply (press_is_level_triggered (lateral 0 201) 200 armed0 armed0);
    reflexivity.
Defined.

(** C4, as the code has it.  A call that does not pass the gate leaves the
    two encoder globals, the armed flag and the time stamp as they were; the
    six sample fields are not left alone: they hold the sample the call has
    just read, since the sensor is read before the gate is tested. *)
Theorem update_before_interval (c : Call) (interval : Z) (s : Machine) :
  gate_open (millis_gate c) interval (imu s) = false ->
  enc (update c interval s) = enc s
  /\ flag (imu (update c interval s)) = flag (imu s)
  /\ last_update_time (imu (update c interval s)) = last_update_time (imu s)
  /\ ax (imu (update c interval s)) = m_ax (motion c)
  /\ ay (imu (update c interval s)) = m_ay (motion c)
  /\ az (imu (update c interval s)) = m_az (motion c)
  /\ gx (imu (update c interval s)) = m_gx (motion c)
  /\ gy (imu (update c interval s)) = m_gy (motion c)
  /\ gz (imu (update c interval s)) = m_gz (motion c).
Proof.
  intros Hg. rewrite (update_not_gated _ _ _ Hg). cbn. repeat split.
Qed.

Lemma update_before_interval_witness :
  enc (update early_call 200 armed0) = enc armed0
  /\ flag (imu (update early_call 200 armed0)) = 1
  /\ ax (imu (update early_call 200 armed0)) = 12000.
Proof.
  pose proof (update_before_interval early_call 200 armed0 eq_refl) as H.
  repeat split; apply H.
Defined.

(** C4, as stated, fails: 100 ms after the last accepted update, with an
    interval of 200 ms, the call is not a no-op, it replaces the stored
    sample. *)
Lemma update_before_interval_not_noop :
  uint32 (millis_gate early_call - last_update_time (imu armed0)) <= uint32 200
  /\ update early_call 200 armed0 <> armed0
  /\ ax (imu armed0) = 0
  /\ ax (imu (update early_call 200 armed0)) = 12000
  /\ ay (imu armed0) = 0
  /\ ay (imu (update early_call 200 armed0)) = 3500.
Proof.
  split; [vm_compute; discriminate|].
  split; [|repeat split].
  intros E. apply (f_equal (fun m => ax (imu m))) in E. discriminate E.
Qed.

(** The events of a sequence, call by call. *)
Lemma events_cons (interval : Z) (c : Call) (cs : list Call) (s : Machine) :
  events interval (c :: cs) s =
    observe (encoder_diff (enc s)) (encoder_diff (enc (update c interval s)))
      :: events interval cs (update c interval s).
Proof. reflexivity. Qed.

(** C2.  The six samples 0, 3500, 3600, 0, -3700, 0, each passing the gate,
    fed to an armed translator, give no event, a step down, no event, no
    event, a step up, no event: two rotation events in all. *)
Theorem scenario_events (interval : Z) (cs : list Call) (s : Machine) :
  flag (imu s) <> 0 ->
  map (fun c => m_ay (motion c)) cs = [0; 3500; 3600; 0; -3700; 0] ->
  all_gated interval cs s = true ->
  events interval cs s
    = [NoEvent; RotateA; NoEvent; NoEvent; RotateB; NoEvent]
  /\ rotations (events interval cs s) = 2%nat.
Proof.
  intros Harmed Hay Hgate.
  destruct cs as [|c1 [|c2 [|c3 [|c4 [|c5 [|c6 [|c7 cs]]]]]]];
    try discriminate Hay.
  injection Hay as E1 E2 E3 E4 E5 E6.
  assert (events interval [c1; c2; c3; c4; c5; c6] s
          = [NoEvent; RotateA; NoEvent; NoEvent; RotateB; NoEvent]) as ->;
    [|split; reflexivity].
  rewrite !events_cons. cbn [all_gated events] in *.
  set (s1 := update c1 interval s) in *.
  set (s2 := update c2 interval s1) in *.
  set (s3 := update c3 interval s2) in *.
  set (s4 := update c4 interval s3) in *.
  set (s5 := update c5 interval s4) in *.
  set (s6 := update c6 interval s5) in *.
  apply andb_prop in Hgate as [G1 Hgate].
  apply andb_prop in Hgate as [G2 Hgate].
  apply andb_prop in Hgate as [G3 Hgate].
  apply andb_prop in Hgate as [G4 Hgate].
  apply andb_prop in Hgate as [G5 Hgate].
  apply andb_prop in Hgate as [G6 _].
  assert (flag (imu s1) = 1 -> flag (imu s1) <> 0) as N1 by lia.
  assert (flag (imu s4) = 1 -> flag (imu s4) <> 0) as N4 by lia.
  destruct (gated_neutral c1 interval s G1 ltac:(lia)) as [D1 F1].
  destruct (gated_down c2 interval s1 G2 ltac:(lia) (N1 F1)) as [D2 F2].
  destruct (gated_unarmed c3 interval s2 G3 F2) as [D3 F3].
  destruct (gated_neutral c4 interval s3 G4 ltac:(lia)) as [D4 F4].
  destruct (gated_up c5 interval s4 G5 ltac:(lia) (N4 F4)) as [D5 F5].
  destruct (gated_neutral c6 interval s5 G6 ltac:(lia)) as [D6 F6].
  fold s1 in D1. fold s2 in D2. fold s3 in D3.
  fold s4 in D4. fold s5 in D5. fold s6 in D6.
  rewrite D6, D5, D4, D3, D2, D1.
  rewrite !observe_same, observe_down, observe_up. reflexivity.
Qed.

Lemma scenario_events_witness :
  events 200 scenario armed0
    = [NoEvent; RotateA; NoEvent; NoEvent; RotateB; NoEvent]
  /\ rotations (events 200 scenario armed0) = 2%nat.
Proof.
  apply (scenario_events 200 scenario armed0).
  - discriminate.
  - reflexivity.
  - reflexivity.
Defined.

(** While the acceleration stays past the threshold the flag alternates:
    a call with the flag up fires and lowers it, the next call finds it down,
    raises it and does not fire.  Of [n] such calls every other one fires,
    beginning with the first when the translator is armed. *)
Lemma held_past_threshold (interval : Z) (cs : list Call) (s : Machine) :
  Forall (fun c => 3000 < m_ay (motion c)) cs ->
  all_gated interval cs s = true ->
  rotations (events interval cs s)
    = if flag (imu s) =? 0 then Nat.div2 (length cs)
      else Nat.div2 (S (length cs)).
Proof.
  intros Hall. revert s.
  induction Hall as [|c cs Hc Hall IH]; intros s Hg.
  - destruct (flag (imu s) =? 0); reflexivity.
  - cbn [all_gated] in Hg. apply andb_prop in Hg as [G Hg].
    rewrite events_cons. unfold rotations in *. cbn [List.filter length].
    specialize (IH _ Hg).
    destruct (Z.eqb_spec (flag (imu s)) 0) as [F|F].
    + destruct (gated_unarmed c interval s G F) as [D F'].
      rewrite D, observe_same. cbn [fired]. rewrite IH, F'. reflexivity.
    + destruct (gated_down c interval s G Hc F) as [D F'].
      rewrite D, observe_down. cbn [fired length]. rewrite IH, F'. reflexivity.
Qed.

(** C1, on the code.  One tilt past +3000 held for three samples and then
    released: every call passes the gate, the first sample fires, the
    second, still past the threshold, raises the flag again, and the third
    fires a second time; the counter ends at -2, not -1. *)
Theorem held_tilt_fires_twice :
  all_gated 200 held_tilt armed0 = true
  /\ map (fun c => m_ay (motion c)) held_tilt = [3500; 3600; 3700; 0]
  /\ events 200 held_tilt armed0 = [RotateA; NoEvent; RotateA; NoEvent]
  /\ flag (imu (run 200 (take 2 held_tilt) armed0)) = 1
  /\ encoder_diff (enc (run 200 held_tilt armed0)) = -2.
Proof. repeat split. Qed.

End GestureClaims.

(* ===================================================================== *)
(** * Properties: the brightness setters *)
(* ===================================================================== *)

Section Brightness.

(** The literal [1.0] is the [float] that the [int] 1 converts to, and
    likewise for 0 and [0.0]. *)
Lemma of_int_one : F32.of_int 1 = F32.one.
Proof. reflexivity. Qed.

Lemma of_int_zero : F32.of_int 0 = F32.zero.
Proof. reflexivity. Qed.

(** [constrain] at a duty above 1, below 0, and at the two bounds. *)
Lemma constrain_above (d : F32.float) :
  F32.ltb F32.one d = true -> F32.constrain d 0 1 = F32.one.
Proof.
  unfold F32.constrain. rewrite of_int_one, of_int_zero.
  destruct d as [[]|[]| |[] m e]; cbn; intros H1; try discriminate H1;
    try reflexivity.
  unfold F32.ltb in H1. rewrite H1. reflexivity.
Qed.

Lemma constrain_below (d : F32.float) :
  F32.ltb d F32.zero = true -> F32.constrain d 0 1 = F32.zero.
Proof.
  unfold F32.constrain. rewrite of_int_zero. intros ->. reflexivity.
Qed.

Lemma constrain_one : F32.constrain F32.one 0 1 = F32.one.
Proof. reflexivity. Qed.

Lemma constrain_zero : F32.constrain F32.zero 0 1 = F32.zero.
Proof. reflexivity. Qed.

(** A duty cannot be above 1 and below 0 at once. *)
Lemma above_not_below (d : F32.float) :
  F32.ltb F32.one d = true -> F32.ltb d F32.zero = false.
Proof.
  destruct d as [[]|[]| |[] m e]; cbn; intros H1; try discriminate H1;
    reflexivity.
Qed.

(** C8.  Both setters clamp: a duty above 1 gives the hardware write and
    the state that 1.0 gives, a duty below 0 what 0.0 gives, for the
    backlight (on any PWM channel and after any earlier writes) and for the
    LED brightness (in any LED state). *)
Theorem setters_clamp (d : F32.float) (channel : Z) (hw : Display.ledc)
    (s : Pixel.t) :
  F32.ltb F32.one d = true \/ F32.ltb d F32.zero = true ->
  let bound := if F32.ltb F32.one d then F32.one else F32.zero in
  Display.setBackLight channel d hw = Display.setBackLight channel bound hw
  /\ Pixel.setBrightness d s = Pixel.setBrightness bound s.
Proof.
  intros [Habove | Hbelow]; cbv zeta.
  - rewrite Habove. unfold Display.setBackLight, Pixel.setBrightness.
    rewrite (constrain_above d Habove), constrain_one. split; reflexivity.
  - assert (F32.ltb F32.one d = false) as ->.
    { destruct (F32.ltb F32.one d) eqn:E; [|reflexivity].
      rewrite (above_not_below d E) in Hbelow. discriminate Hbelow. }
    unfold Display.setBackLight, Pixel.setBrightness.
    rewrite (constrain_below d Hbelow), constrain_zero. split; reflexivity.
Qed.

Lemma setters_clamp_witness :
  (Display.setBackLight 0 F32.one_and_a_half []
     = Display.setBackLight 0 F32.one []
   /\ Pixel.setBrightness F32.one_and_a_half Pixel.init
      = Pixel.setBrightness F32.one Pixel.init)
  /\ (Display.setBackLight 0 F32.minus_point_two []
        = Display.setBackLight 0 F32.zero []
      /\ Pixel.setBrightness F32.minus_point_two Pixel.init
         = Pixel.setBrightness F32.zero Pixel.init).
Proof.
  split.
  - apply (setters_clamp F32.one_and_a_half 0 [] Pixel.init).
    left. reflexivity.
  - apply (setters_clamp F32.minus_point_two 0 [] Pixel.init).
    right. reflexivity.
Defined.

End Brightness.

(* ===================================================================== *)
(** * Properties: the LED colour buffer *)
(* ===================================================================== *)

Section ColourBuffer.

Import Pixel.

(** [FastLED.show()] leaves the colour buffer alone. *)
Lemma show_color_buffers (s : Pixel.t) :
  color_buffers (show s) = color_buffers s.
Proof. reflexivity. Qed.

(** The two outcomes of [setRGB]. *)
Lemma setRGB_inside (id r g b : Z) (s : Pixel.t) :
  0 <= id < Z.of_nat (length (color_buffers s)) ->
  setRGB id r g b s =
    Some (show {| color_buffers :=
                    <[Z.to_nat id := CRGB_of r g b]> (color_buffers s);
                  brightness := brightness s;
                  shown := shown s |}).
Proof.
  intros [Hlo Hhi]. unfold setRGB.
  destruct (Z.leb_spec 0 id); [|lia].
  destruct (Z.ltb_spec id (Z.of_nat (length (color_buffers s)))); [|lia].
  reflexivity.
Qed.

Lemma setRGB_outside (id r g b : Z) (s : Pixel.t) :
  id < 0 \/ Z.of_nat (length (color_buffers s)) <= id ->
  setRGB id r g b s = None.
Proof.
  intros H. unfold setRGB.
  destruct (Z.leb_spec 0 id);
    destruct (Z.ltb_spec id (Z.of_nat (length (color_buffers s))));
    try reflexivity; lia.
Qed.

(** C10.  [setRGB] stays inside the colour buffer exactly when
    [0 <= id < length color_buffers]; any other [id] takes the
    out-of-bounds branch.  When it stays inside, the buffer keeps its
    length, entry [id] holds the new colour and every other entry is as
    before.  The device has two LEDs, [setup] addresses 0 and 1, and 2 is
    already outside. *)
Theorem setRGB_bounds (id r g b : Z) (s : Pixel.t) :
  (is_Some (setRGB id r g b s)
     <-> 0 <= id < Z.of_nat (length (color_buffers s)))
  /\ (setRGB id r g b s = None
        <-> id < 0 \/ Z.of_nat (length (color_buffers s)) <= id)
  /\ (forall s', setRGB id r g b s = Some s' ->
        length (color_buffers s') = length (color_buffers s)
        /\ color_buffers s' !! Z.to_nat id = Some (CRGB_of r g b)
        /\ forall j, j <> Z.to_nat id ->
             color_buffers s' !! j = color_buffers s !! j)
  /\ length (color_buffers Pixel.init) = RGB_LED_NUM
  /\ is_Some (setup_leds Pixel.init)
  /\ setRGB 2 r g b Pixel.init = None.
Proof.
  assert (0 <= id < Z.of_nat (length (color_buffers s))
          \/ (id < 0 \/ Z.of_nat (length (color_buffers s)) <= id))
    as [Hin | Hout] by lia.
  - pose proof (setRGB_inside id r g b s Hin) as E.
    split; [|split; [|split; [|split; [|split]]]].
    + split; [intros _; exact Hin | intros _; rewrite E; eexists; reflexivity].
    + split; [intros N; rewrite E in N; discriminate N | lia].
    + intros s' E'. rewrite E in E'. injection E' as <-.
      rewrite show_color_buffers. cbn [color_buffers].
      split; [apply length_insert|].
      split; [apply list_lookup_insert_eq; lia|].
      intros j Hj. apply list_lookup_insert_ne. congruence.
    + reflexivity.
    + eexists; reflexivity.
    + reflexivity.
  - pose proof (setRGB_outside id r g b s Hout) as E.
    split; [|split; [|split; [|split; [|split]]]].
    + split; [intros [s' N]; rewrite E in N; discriminate N | lia].
    + split; [intros _; exact Hout | intros _; exact E].
    + intros s' E'. rewrite E in E'. discriminate E'.
    + reflexivity.
    + eexists; reflexivity.
    + reflexivity.
Qed.

End ColourBuffer.

(* ===================================================================== *)
(** * Properties: sensor initialisation *)
(* ===================================================================== *)

Section SensorInit.

Import Sensor.

(** Against a sensor that never acknowledges, the wait is never left. *)
Lemma wait_connection_absent (fuel k : nat) :
  wait_connection fuel absent k = None.
Proof.
  revert k. induction fuel as [|fuel IH]; intros k; [reflexivity|].
  cbn. apply IH.
Qed.

(** When the wait is left after probe [n], that probe was acknowledged and
    none before it was. *)
Lemma wait_connection_some (fuel : nat) (conn : sensor) (k n : nat) :
  wait_connection fuel conn k = Some n ->
  (k < n)%nat /\ conn (n - 1)%nat = true
  /\ forall j, (k <= j < n - 1)%nat -> conn j = false.
Proof.
  revert k. induction fuel as [|fuel IH]; intros k H; [discriminate H|].
  cbn in H. destruct (conn k) eqn:Ek.
  - injection H as <-. replace (S k - 1)%nat with k by lia.
    split; [lia|]. split; [exact Ek|]. intros j Hj. lia.
  - destruct (IH _ H) as (Hlt & Hn & Hbefore).
    split; [lia|]. split; [exact Hn|].
    intros j Hj. destruct (Nat.eq_dec j k) as [->|Hne]; [exact Ek|].
    apply Hbefore. lia.
Qed.

(** The wait uses at most one unit of fuel for each probe. *)
Lemma wait_connection_bound (fuel : nat) (conn : sensor) (k n : nat) :
  wait_connection fuel conn k = Some n -> (n <= k + fuel)%nat.
Proof.
  revert k. induction fuel as [|fuel IH]; intros k E; [discriminate E|].
  cbn in E. destruct (conn k); [injection E as <-; lia|].
  apply IH in E. lia.
Qed.

(** When some probe from [k] on is acknowledged, enough fuel sees the wait
    left. *)
Lemma wait_connection_complete (conn : sensor) (j : nat) :
  conn j = true ->
  forall fuel k, (k <= j)%nat -> (j - k < fuel)%nat ->
  exists n, wait_connection fuel conn k = Some n.
Proof.
  intros Hj. induction fuel as [|fuel IH]; intros k Hk Hf; [lia|].
  cbn. destruct (conn k) eqn:Ek; [eexists; reflexivity|].
  assert (k <> j) by (intros ->; congruence).
  apply IH; lia.
Qed.

(** C5, as stated, fails: against a sensor that never acknowledges,
    [IMU::init] returns with no amount of fuel, so it neither terminates nor
    reports anything. *)
Lemma init_spins_without_sensor :
  ~ exists fuel n, init fuel absent = Some n.
Proof.
  intros (fuel & n & H). unfold init in H.
  rewrite wait_connection_absent in H. discriminate H.
Qed.

(** C5, as the code has it.  [IMU::init] returns exactly when the sensor
    acknowledges some probe; it then returns right after the first
    acknowledged probe, with every larger amount of fuel as well, and it has
    no error outcome. *)
Theorem init_waits_for_acknowledgement (conn : sensor) :
  ((exists fuel n, init fuel conn = Some n) <-> (exists k, conn k = true))
  /\ (forall fuel n, init fuel conn = Some n ->
        conn (n - 1)%nat = true
        /\ (forall j, (j < n - 1)%nat -> conn j = false)
        /\ forall fuel', (fuel <= fuel')%nat -> init fuel' conn = Some n).
Proof.
  split.
  - split.
    + intros (fuel & n & H). exists (n - 1)%nat.
      apply (wait_connection_some _ _ _ _ H).
    + intros (k & Hk). exists (S k).
      apply (wait_connection_complete conn k Hk); lia.
  - intros fuel n H.
    destruct (wait_connection_some _ _ _ _ H) as (Hlt & Hn & Hbefore).
    split; [exact Hn|]. split; [intros j Hj; apply Hbefore; lia|].
    intros fuel' Hle.
    destruct (wait_connection_complete conn (n - 1) Hn fuel' 0) as [n' H'];
      [lia| |].
    + pose proof (wait_connection_bound _ _ _ _ H). lia.
    + unfold init. rewrite H'. f_equal.
      destruct (wait_connection_some _ _ _ _ H') as (Hlt' & Hn' & Hbefore').
      destruct (Nat.lt_trichotomy n n') as [L|[E|L]]; [|exact (eq_sym E)|].
      * rewrite (Hbefore' (n - 1)%nat) in Hn; [discriminate Hn | lia].
      * rewrite (Hbefore (n' - 1)%nat) in Hn'; [discriminate Hn' | lia].
Qed.

End SensorInit.

(* ===================================================================== *)
(** * Properties: the SD card reader *)
(* ===================================================================== *)

Section Storage.

Import SdCard.

(** A store that fits. *)
Lemma store_inside (off : nat) (data buf : list byte) :
  (off + length data <= length buf)%nat ->
  store off data buf
    = Some (take off buf ++ data ++ drop (off + length data) buf).
Proof.
  intros H. unfold store.
  destruct (Nat.leb_spec (off + length data) (length buf)); [reflexivity|lia].
Qed.

(** The loop copies [len] bytes from the read position to the offset, 512
    at a time, when the file holds them and the destination has room. *)
Lemma read_loop_copies (len : nat) (f : File) (off : nat) (buf : list byte) :
  (pos f + len <= length (content f))%nat ->
  (off + len <= length buf)%nat ->
  read_loop len f off buf
    = Some (take off buf ++ take len (drop (pos f) (content f))
              ++ drop (off + len) buf).
Proof.
  revert f off buf.
  induction len as [len IH] using lt_wf_ind. intros f off buf Hf Hb.
  destruct len as [|n].
  - simp read_loop.
    rewrite Nat.add_0_r, take_0, app_nil_l, take_drop. reflexivity.
  - simp read_loop. cbv zeta.
    set (toRead := if (512 <? S n)%nat then 512%nat else S n).
    assert (0 < toRead <= S n)%nat as HtR.
    { unfold toRead. destruct (Nat.ltb_spec 512 (S n)); lia. }
    unfold read.
    set (data := take toRead (drop (pos f) (content f))).
    assert (length data = toRead) as Hd.
    { unfold data. rewrite length_take, length_drop. lia. }
    rewrite store_inside by lia.
    rewrite IH; cbn [pos content]; try lia.
    2:{ rewrite !length_app, length_take, length_drop. lia. }
    f_equal. rewrite Hd.
    rewrite (app_assoc (take off buf) data).
    assert (off + toRead = length (take off buf ++ data))%nat as Hl.
    { rewrite length_app, length_take. lia. }
    rewrite (take_app_length' _ _ _ Hl), (drop_app_add' _ _ _ _ Hl), drop_drop.
    rewrite <- (drop_drop (content f)), <- app_assoc.
    unfold data. rewrite (app_assoc (take toRead _)), take_take_drop.
    replace (toRead + (S n - toRead))%nat with (S n) by lia.
    replace (off + toRead + (S n - toRead))%nat with (off + S n)%nat by lia.
    reflexivity.
Qed.

(** A file that exists and fits is copied whole to the start of the
    destination. *)
Lemma readBinFromSd_found (sd : gmap string (list byte)) (path : string)
    (bytes buf : list byte) :
  sd !! path = Some bytes ->
  (length bytes <= length buf)%nat ->
  readBinFromSd sd path buf
    = ([Reading path; FileSize (length bytes); ReadDone (length bytes)],
       Some (bytes ++ drop (length bytes) buf)).
Proof.
  intros Hp Hl. unfold readBinFromSd, open. rewrite Hp. cbn [content].
  rewrite read_loop_copies by (cbn; lia). cbn.
  rewrite firstn_all. reflexivity.
Qed.


End Storage.

(* ===================================================================== *)
(** * Properties: the main loop *)
(* ===================================================================== *)

Section MainLoop.

Import Main.








End MainLoop.

(* ===================================================================== *)
(** * Further properties: the gesture translator *)
(* ===================================================================== *)

Section GestureMore.

Import IMU.

(** The conversion lands in the type, and may be applied before or after
    a further step. *)
Lemma int16_range (x : Z) : -32768 <= int16 x < 32768.
Proof. rewrite int16_unfold. Z.div_mod_to_equations. lia. Qed.

Lemma int16_add_l (a b : Z) : int16 (int16 a + b) = int16 (a + b).
Proof.
  rewrite !int16_unfold.
  replace ((a + 32768) mod 65536 - 32768 + b + 32768)
    with ((a + 32768) mod 65536 + b) by lia.
  replace (a + b + 32768) with ((a + 32768) + b) by lia.
  rewrite Zplus_mod_idemp_l. reflexivity.
Qed.

(** The event, the counter and the flag that a call leaves, in each of the
    five situations it can find. *)
Lemma update_cases (c : Call) (interval : Z) (s : Machine) :
  let s' := update c interval s in
  let e := observe (encoder_diff (enc s)) (encoder_diff (enc s')) in
  (gate_open (millis_gate c) interval (imu s) = false
   /\ e = NoEvent /\ encoder_diff (enc s') = encoder_diff (enc s)
   /\ flag (imu s') = flag (imu s))
  \/ (gate_open (millis_gate c) interval (imu s) = true
      /\ flag (imu s) = 0
      /\ e = NoEvent /\ encoder_diff (enc s') = encoder_diff (enc s)
      /\ flag (imu s') = 1)
  \/ (gate_open (millis_gate c) interval (imu s) = true
      /\ flag (imu s) <> 0 /\ -3000 <= m_ay (motion c) <= 3000
      /\ e = NoEvent /\ encoder_diff (enc s') = encoder_diff (enc s)
      /\ flag (imu s') = 1)
  \/ (gate_open (millis_gate c) interval (imu s) = true
      /\ flag (imu s) <> 0 /\ 3000 < m_ay (motion c)
      /\ e = RotateA
      /\ encoder_diff (enc s') = int16 (encoder_diff (enc s) - 1)
      /\ flag (imu s') = 0)
  \/ (gate_open (millis_gate c) interval (imu s) = true
      /\ flag (imu s) <> 0 /\ m_ay (motion c) < -3000
      /\ e = RotateB
      /\ encoder_diff (enc s') = int16 (encoder_diff (enc s) + 1)
      /\ flag (imu s') = 0).
Proof.
  cbv zeta.
  destruct (gate_open (millis_gate c) interval (imu s)) eqn:G.
  - right. destruct (Z.eq_dec (flag (imu s)) 0) as [F|F].
    + left. destruct (gated_unarmed c interval s G F) as [D F'].
      rewrite D, observe_same. repeat split; (assumption || lia).
    + right.
      assert (m_ay (motion c) < -3000 \/ -3000 <= m_ay (motion c) <= 3000
              \/ 3000 < m_ay (motion c)) as [A|[A|A]] by lia.
      * right. right. destruct (gated_up c interval s G A F) as [D F'].
        rewrite D, observe_up. repeat split; (assumption || lia).
      * left. destruct (gated_neutral c interval s G A) as [D F'].
        rewrite D, observe_same. repeat split; (assumption || lia).
      * right. left. destruct (gated_down c interval s G A F) as [D F'].
        rewrite D, observe_down. repeat split; (assumption || lia).
  - left. rewrite (update_not_gated c interval s G). cbn.
    rewrite observe_same. repeat split.
Qed.

(** X1.  A call of [update] steps the counter down exactly when it passes
    the gate, finds the flag up and reads a lateral acceleration above 3000;
    up exactly when it passes the gate, finds the flag up and reads one
    below -3000; and leaves it alone in every other case: when it is
    rate-limited, when the flag is down, and in the neutral band. *)
Theorem rotation_event_iff (c : Call) (interval : Z) (s : Machine) :
  let e := observe (encoder_diff (enc s))
             (encoder_diff (enc (update c interval s))) in
  (e = RotateA
     <-> gate_open (millis_gate c) interval (imu s) = true
         /\ flag (imu s) <> 0 /\ 3000 < m_ay (motion c))
  /\ (e = RotateB
        <-> gate_open (millis_gate c) interval (imu s) = true
            /\ flag (imu s) <> 0 /\ m_ay (motion c) < -3000)
  /\ (e = NoEvent
        <-> gate_open (millis_gate c) interval (imu s) = false
            \/ flag (imu s) = 0 \/ -3000 <= m_ay (motion c) <= 3000).
Proof.
  cbv zeta.
  destruct (update_cases c interval s)
    as [(G & E & _)|[(G & F & E & _)|[(G & F & A & E & _)
       |[(G & F & A & E & _)|(G & F & A & E & _)]]]];
    rewrite E, G.
  all: repeat split; try discriminate; try tauto; try lia.
  all: try (intros (? & ? & ?); first [discriminate | contradiction | lia]).
  all: try (intros [?|[?|?]]; first [discriminate | contradiction | lia]).
Qed.

Lemma div2_le_S (n : nat) : (Nat.div2 n <= Nat.div2 (S n))%nat.
Proof.
  induction n as [n IH] using lt_wf_ind.
  destruct n as [|[|n]]; cbn; try lia.
  specialize (IH n ltac:(lia)). cbn in IH. destruct n; lia.
Qed.

Lemma div2_double_le (n : nat) : (2 * Nat.div2 n <= n)%nat.
Proof.
  induction n as [n IH] using lt_wf_ind.
  destruct n as [|[|n]]; cbn [Nat.div2]; try lia.
  specialize (IH n ltac:(lia)). lia.
Qed.

(** A call that fires lowers the flag, and the next call that passes the
    gate only raises it again: of any [n] calls at most every other one
    fires. *)
Lemma rotations_bound (interval : Z) (cs : list Call) (s : Machine) :
  (rotations (events interval cs s) <= Nat.div2 (S (length cs)))%nat
  /\ (flag (imu s) = 0 ->
      (rotations (events interval cs s) <= Nat.div2 (length cs))%nat).
Proof.
  revert s. induction cs as [|c cs IH]; intros s.
  - split; intros; cbn; lia.
  - rewrite events_cons. unfold rotations in *. cbn [List.filter length].
    specialize (IH (update c interval s)). destruct IH as [IH1 IH0].
    pose proof (div2_le_S (length cs)) as M1.
    pose proof (div2_le_S (S (length cs))) as M2.
    destruct (update_cases c interval s)
      as [(G & E & _ & F')|[(G & F & E & _ & F')|[(G & F & A & E & _ & F')
         |[(G & F & A & E & _ & F')|(G & F & A & E & _ & F')]]]];
      cbv zeta in E, F'; rewrite E; cbn [fired length].
    + split; [lia|]. intros F0. rewrite F0 in F'. specialize (IH0 F'). lia.
    + split; intros; lia.
    + split; [lia|]. intros F0. contradiction.
    + specialize (IH0 F'). split; [|intros F0; contradiction].
      change (Nat.div2 (S (S (length cs)))) with (S (Nat.div2 (length cs))).
      lia.
    + specialize (IH0 F'). split; [|intros F0; contradiction].
      change (Nat.div2 (S (S (length cs)))) with (S (Nat.div2 (length cs))).
      lia.
Qed.

(** X2.  Of any [n] successive calls of [update], rate-limited or not and
    whatever the samples, at most [n/2] rounded up emit a rotation event,
    and at most [n/2] rounded down when the flag is down at the start; in
    particular two calls in a row never both emit one. *)
Theorem rotations_at_most_every_other_call (interval : Z) (cs : list Call)
    (s : Machine) :
  (rotations (events interval cs s) <= Nat.div2 (S (length cs)))%nat
  /\ (flag (imu s) = 0 ->
      (rotations (events interval cs s) <= Nat.div2 (length cs))%nat)
  /\ (forall c1 c2, (rotations (events interval [c1; c2] s) <= 1)%nat).
Proof.
  destruct (rotations_bound interval cs s) as [H1 H0].
  split; [exact H1|]. split; [exact H0|].
  intros c1 c2.
  destruct (rotations_bound interval [c1; c2] s) as [H _]. exact H.
Qed.

Lemma net_cons (e : rotation) (es : list rotation) :
  net (e :: es) = delta e + net es.
Proof. reflexivity. Qed.

(** The events of a sequence never sum to more than the number of calls
    that fired. *)
Lemma net_bound (es : list rotation) :
  - Z.of_nat (rotations es) <= net es <= Z.of_nat (rotations es).
Proof.
  induction es as [|e es IH]; [cbn; lia|].
  rewrite net_cons.
  unfold rotations in *. cbn [List.filter].
  destruct e; cbn [fired delta length]; lia.
Qed.

(** The counter after a sequence of calls. *)
Lemma run_encoder_diff (interval : Z) (cs : list Call) (s : Machine) :
  -32768 <= encoder_diff (enc s) < 32768 ->
  encoder_diff (enc (run interval cs s))
    = int16 (encoder_diff (enc s) + net (events interval cs s)).
Proof.
  revert s. induction cs as [|c cs IH]; intros s Hr.
  - cbn. rewrite Z.add_0_r, int16_small by lia. reflexivity.
  - rewrite events_cons, net_cons. cbn [run].
    destruct (update_cases c interval s)
      as [(G & E & D & _)|[(G & F & E & D & _)|[(G & F & A & E & D & _)
         |[(G & F & A & E & D & _)|(G & F & A & E & D & _)]]]];
      cbv zeta in E, D; rewrite E; cbn [delta].
    1-3: rewrite IH by (rewrite D; exact Hr); rewrite D; f_equal; lia.
    all: rewrite IH by (rewrite D; apply int16_range);
      rewrite D, int16_add_l; f_equal; lia.
Qed.

(** X3.  What the consumer reads after any sequence of updates is the
    counter it started from plus the sum of the events in between, as a
    16-bit value, and the read clears the counter; starting from a cleared
    counter and with at most 65534 calls in between the sum is read
    exactly, without wrap-around. *)
Theorem reads_coalesce (interval : Z) (cs : list Call) (s : Machine)
    (data : lv_indev_data_t) :
  -32768 <= encoder_diff (enc s) < 32768 ->
  let after := encoder_read data (enc (run interval cs s)) in
  enc_diff after.1.2
    = int16 (encoder_diff (enc s) + net (events interval cs s))
  /\ encoder_diff after.2 = 0
  /\ (encoder_diff (enc s) = 0 -> Z.of_nat (length cs) <= 65534 ->
      enc_diff after.1.2 = net (events interval cs s)).
Proof.
  intros Hr. cbn. rewrite (run_encoder_diff interval cs s Hr).
  rewrite (int16_small (int16 _)) by apply int16_range.
  split; [reflexivity|]. split; [reflexivity|].
  intros H0 Hlen. rewrite H0, Z.add_0_l. apply int16_small.
  pose proof (net_bound (events interval cs s)) as Hn.
  destruct (rotations_bound interval cs s) as [Hb _].
  pose proof (div2_double_le (S (length cs))). lia.
Qed.

Lemma reads_coalesce_witness :
  enc_diff (encoder_read (mk_indev_data 7 LV_INDEV_STATE_PR)
              (enc (run 200 held_tilt armed0))).1.2 = -2.
Proof.
  pose proof (reads_coalesce 200 held_tilt armed0
                (mk_indev_data 7 LV_INDEV_STATE_PR)) as H.
  cbv zeta in H. destruct H as (E & _ & _).
  - cbn. lia.
  - rewrite E. reflexivity.
Defined.

Lemma run_app (interval : Z) (cs cs' : list Call) (s : Machine) :
  run interval (cs ++ cs') s = run interval cs' (run interval cs s).
Proof.
  revert s. induction cs as [|c cs IH]; intros s; [reflexivity|].
  cbn. apply IH.
Qed.

(** The sample fields after a call, whether it passes the gate or not. *)
Lemma update_sample (c : Call) (interval : Z) (s : Machine) :
  ax (imu (update c interval s)) = m_ax (motion c)
  /\ ay (imu (update c interval s)) = m_ay (motion c)
  /\ az (imu (update c interval s)) = m_az (motion c)
  /\ gx (imu (update c interval s)) = m_gx (motion c)
  /\ gy (imu (update c interval s)) = m_gy (motion c)
  /\ gz (imu (update c interval s)) = m_gz (motion c).
Proof.
  destruct (gate_open (millis_gate c) interval (imu s)) eqn:G.
  - rewrite (update_gated c interval s G). repeat split.
  - rewrite (update_not_gated c interval s G). repeat split.
Qed.

(** X4.  After any sequence of calls the six getters return the sample of
    the last call, whether that call passed the gate or was rate-limited. *)
Theorem getters_return_latest_sample (interval : Z) (cs : list Call)
    (c : Call) (s : Machine) :
  let i := imu (run interval (cs ++ [c]) s) in
  getAccelX i = m_ax (motion c)
  /\ getAccelY i = m_ay (motion c)
  /\ getAccelZ i = m_az (motion c)
  /\ getGyroX i = m_gx (motion c)
  /\ getGyroY i = m_gy (motion c)
  /\ getGyroZ i = m_gz (motion c).
Proof.
  cbv zeta. rewrite run_app. cbn [run].
  apply update_sample.
Qed.

Lemma uint32_small (x : Z) : 0 <= x < 4294967296 -> uint32 x = x.
Proof. intros H. unfold uint32. apply Z.mod_small. exact H. Qed.

Lemma uint32_range (x : Z) : 0 <= uint32 x < 4294967296.
Proof. unfold uint32. apply Z.mod_pos_bound. reflexivity. Qed.

(** X5.  After an accepted update, with an interval in [0, 2^32) and the
    clock not yet wrapped since the time stamp, the next call passes the
    gate exactly when more than [interval] milliseconds have gone by: up to
    and including [interval] it changes neither the encoder globals nor the
    flag nor the time stamp, after that it is accepted and takes the new
    time stamp. *)
Theorem gate_after_accepted_update (c c' : Call) (interval : Z)
    (s : Machine) :
  gate_open (millis_gate c) interval (imu s) = true ->
  0 <= interval < 4294967296 ->
  0 <= millis_gate c' - millis_stamp c < 4294967296 ->
  let s1 := update c interval s in
  gate_open (millis_gate c') interval (imu s1)
    = (interval <? millis_gate c' - millis_stamp c)
  /\ (millis_gate c' - millis_stamp c <= interval ->
      enc (update c' interval s1) = enc s1
      /\ flag (imu (update c' interval s1)) = flag (imu s1)
      /\ last_update_time (imu (update c' interval s1)) = millis_stamp c)
  /\ (interval < millis_gate c' - millis_stamp c ->
      last_update_time (imu (update c' interval s1)) = millis_stamp c'
      /\ encoder_state (enc (update c' interval s1))
         = press (m_ax (motion c'))).
Proof.
  intros G Hi He. cbv zeta.
  assert (gate_open (millis_gate c') interval (imu (update c interval s))
          = (interval <? millis_gate c' - millis_stamp c)) as E.
  { rewrite (update_gated c interval s G). unfold gate_open. cbn.
    rewrite !uint32_small by lia. reflexivity. }
  split; [exact E|]. split.
  - intros Hle. assert (gate_open (millis_gate c') interval
                          (imu (update c interval s)) = false) as G'.
    { rewrite E. apply Z.ltb_ge. exact Hle. }
    rewrite (update_not_gated c' interval _ G'). cbn.
    rewrite (update_gated c interval s G). repeat split.
  - intros Hlt. assert (gate_open (millis_gate c') interval
                          (imu (update c interval s)) = true) as G'.
    { rewrite E. apply Z.ltb_lt. exact Hlt. }
    rewrite (update_gated c' interval _ G'). repeat split.
Qed.

Lemma gate_after_accepted_update_witness :
  gate_open (millis_gate (lateral 3600 300)) 200
    (imu (update (lateral 3500 201) 200 armed0)) = false.
Proof.
  pose proof (gate_after_accepted_update (lateral 3500 201)
                (lateral 3600 300) 200 armed0) as H.
  cbv zeta in H. destruct H as (E & _ & _).
  - reflexivity.
  - lia.
  - cbn. lia.
  - rewrite E. reflexivity.
Defined.

(** X6.  A negative interval does not make every call pass: converted to
    [unsigned long] it is [2^32 + interval], so the gate opens only after
    more than that many milliseconds, and with an interval of -1 no call is
    ever accepted: the encoder globals and the flag stay as they are
    whatever the sensor delivers. *)
Theorem negative_interval_gate (c : Call) (interval : Z) (s : Machine) :
  -2147483648 <= interval < 0 ->
  gate_open (millis_gate c) interval (imu s)
    = (4294967296 + interval
         <? uint32 (millis_gate c - last_update_time (imu s)))
  /\ (interval = -1 ->
      forall cs, enc (run interval cs s) = enc s
                 /\ flag (imu (run interval cs s)) = flag (imu s)).
Proof.
  intros Hi.
  assert (uint32 interval = 4294967296 + interval) as U.
  { unfold uint32. change (2 ^ 32) with 4294967296.
    Z.div_mod_to_equations. lia. }
  split; [unfold gate_open; rewrite U; reflexivity|].
  intros -> cs. revert s. induction cs as [|c' cs IH]; intros s.
  - split; reflexivity.
  - cbn [run].
    assert (gate_open (millis_gate c') (-1) (imu s) = false) as G.
    { unfold gate_open. apply Z.ltb_ge.
      pose proof (uint32_range (millis_gate c' - last_update_time (imu s))).
      change (uint32 (-1)) with 4294967295. lia. }
    destruct (IH (update c' (-1) s)) as [E F]. rewrite E, F.
    rewrite (update_not_gated c' (-1) s G). split; reflexivity.
Qed.

Lemma negative_interval_gate_witness :
  gate_open (millis_gate (lateral 3500 201)) (-1) (imu armed0) = false
  /\ enc (run (-1) held_tilt armed0) = enc armed0.
Proof.
  destruct (negative_interval_gate (lateral 3500 201) (-1) armed0) as [E H].
  - lia.
  - split; [rewrite E; reflexivity|]. apply (H eq_refl held_tilt).
Defined.

End GestureMore.

(* ===================================================================== *)
(** * Further properties: the SD card reader and writer *)
(* ===================================================================== *)

Section StorageMore.

Import SdCard.

(** A store that does not fit. *)
Lemma store_outside (off : nat) (data buf : list byte) :
  (length buf < off + length data)%nat -> store off data buf = None.
Proof.
  intros H. unfold store.
  destruct (Nat.leb_spec (off + length data) (length buf)); [lia|reflexivity].
Qed.

(** The loop runs off the destination when it has no room for [len] more
    bytes. *)
Lemma read_loop_overruns (len : nat) (f : File) (off : nat) (buf : list byte) :
  (pos f + len <= length (content f))%nat ->
  (length buf < off + len)%nat ->
  (off <= length buf)%nat ->
  read_loop len f off buf = None.
Proof.
  revert f off buf.
  induction len as [len IH] using lt_wf_ind. intros f off buf Hf Hb Ho.
  destruct len as [|n]; [lia|].
  simp read_loop. cbv zeta.
  set (toRead := if (512 <? S n)%nat then 512%nat else S n).
  assert (0 < toRead <= S n)%nat as HtR.
  { unfold toRead. destruct (Nat.ltb_spec 512 (S n)); lia. }
  unfold read.
  set (data := take toRead (drop (pos f) (content f))).
  assert (length data = toRead) as Hd.
  { unfold data. rewrite length_take, length_drop. lia. }
  destruct (Nat.le_gt_cases (off + toRead) (length buf)) as [Hfit|Hover].
  - rewrite store_inside by lia.
    apply IH; cbn [pos content]; try lia;
      rewrite ?length_app, ?length_take, ?length_drop; lia.
  - rewrite store_outside by lia. reflexivity.
Qed.

(** X7.  For a file that exists, [readBinFromSd] copies the whole file to
    the start of the destination and leaves the bytes after it alone when
    the destination is at least as long as the file; when it is shorter the
    copy runs past its end, as the function is given no length to test. *)
Theorem readBinFromSd_copies_or_overruns (sd : gmap string (list byte))
    (path : string) (bytes buf : list byte) :
  sd !! path = Some bytes ->
  readBinFromSd sd path buf
    = ([Reading path; FileSize (length bytes); ReadDone (length bytes)],
       if (length bytes <=? length buf)%nat
       then Some (bytes ++ drop (length bytes) buf)
       else None).
Proof.
  intros Hp.
  destruct (Nat.leb_spec (length bytes) (length buf)) as [Hfit|Hover].
  - apply readBinFromSd_found; assumption.
  - unfold readBinFromSd, open. rewrite Hp. cbn [content].
    rewrite read_loop_overruns by (cbn; lia). reflexivity.
Qed.

Lemma readBinFromSd_copies_or_overruns_witness :
  (readBinFromSd wifi_card "/wifi.txt" ["a"%byte; "b"%byte]).2 = None.
Proof.
  rewrite (readBinFromSd_copies_or_overruns wifi_card "/wifi.txt" wifi_txt
             ["a"%byte; "b"%byte]).
  - reflexivity.
  - reflexivity.
Defined.

(** One character of the loop of [readFileLine]. *)
Lemma line_loop_cons (cap : nat) (c : byte) (rest : list byte) (num : Z)
    (stored : list byte) :
  line_loop cap (c :: rest) num stored =
    if is_newline c then
      if int32 (num - 1) =? 0 then
        if (length stored <? cap)%nat
        then Some ([LineRead (int32 (int32 (num - 1) + 1))],
                   trim (c_string (stored ++ ["000"%byte])))
        else None
      else line_loop cap rest (int32 (num - 1)) stored
    else if num =? 1 then
      if (length stored <? cap)%nat
      then line_loop cap rest num (stored ++ [c])
      else None
    else line_loop cap rest num stored.
Proof. reflexivity. Qed.

(** The loop of [readFileLine] over a stretch without newlines: it is
    passed over when the line is not the wanted one, and stored when it
    is. *)
Lemma line_loop_skip (cap : nat) (l rest : list byte) (num : Z)
    (stored : list byte) :
  Forall (fun c => is_newline c = false) l ->
  num <> 1 ->
  line_loop cap (l ++ rest) num stored = line_loop cap rest num stored.
Proof.
  intros Hl Hn. induction Hl as [|c l Hc Hl IH]; [reflexivity|].
  cbn [app]. rewrite line_loop_cons, Hc.
  destruct (Z.eqb_spec num 1); [contradiction|]. exact IH.
Qed.

Lemma line_loop_store (cap : nat) (l rest stored : list byte) :
  Forall (fun c => is_newline c = false) l ->
  (length stored + length l <= cap)%nat ->
  line_loop cap (l ++ rest) 1 stored = line_loop cap rest 1 (stored ++ l).
Proof.
  intros Hl. revert stored.
  induction Hl as [|c l Hc Hl IH]; intros stored Hcap.
  - rewrite app_nil_r. reflexivity.
  - cbn [app length] in *. rewrite line_loop_cons, Hc. cbn [Z.eqb Pos.eqb].
    destruct (Nat.ltb_spec (length stored) cap); [|lia].
    rewrite IH by (rewrite length_app; cbn [length]; lia).
    rewrite <- app_assoc. reflexivity.
Qed.

Lemma line_loop_newline_last (cap : nat) (rest stored : list byte) :
  (length stored < cap)%nat ->
  line_loop cap ("010"%byte :: rest) 1 stored
    = Some ([LineRead 1], trim (c_string (stored ++ ["000"%byte]))).
Proof.
  intros H. rewrite line_loop_cons.
  change (is_newline "010"%byte) with true.
  change (int32 (1 - 1) =? 0) with true. cbv iota.
  destruct (Nat.ltb_spec (length stored) cap); [reflexivity|lia].
Qed.

Lemma line_loop_newline_earlier (cap : nat) (rest stored : list byte)
    (num : Z) :
  2 <= num < 2147483648 ->
  line_loop cap ("010"%byte :: rest) num stored
    = line_loop cap rest (num - 1) stored.
Proof.
  intros H. rewrite line_loop_cons, int32_small by lia.
  change (is_newline "010"%byte) with true. cbv iota.
  destruct (Z.eqb_spec (num - 1) 0); [lia|reflexivity].
Qed.

(** A string without a NUL is what its C string holds. *)
Lemma c_string_no_nul (l : list byte) :
  Forall (fun c => Byte.eqb c "000"%byte = false) l ->
  c_string (l ++ ["000"%byte]) = l.
Proof.
  intros H. induction H as [|c l Hc H IH]; [reflexivity|].
  cbn. rewrite Hc, IH. reflexivity.
Qed.

Lemma unlines_cons (l : list byte) (ls : list (list byte)) :
  unlines (l :: ls) = l ++ "010"%byte :: unlines ls.
Proof. unfold unlines. cbn. rewrite <- app_assoc. reflexivity. Qed.

(** X8.  When the file begins with newline-terminated lines (whatever
    follows them), [readFileLine] with the number of one of these lines,
    counted from 1, returns that line up to its first NUL with the white
    space at both ends removed, provided the line is shorter than the
    buffer; for a line without a NUL that is the trimmed line.  The
    message printed at the end reports line 1 whatever the number. *)
Theorem readFileLine_returns_line (cap : nat) (sd : gmap string (list byte))
    (path : string) (lines : list (list byte)) (rest : list byte)
    (k : nat) (line : list byte) :
  sd !! path = Some (unlines lines ++ rest) ->
  Forall (Forall (fun c => is_newline c = false)) lines ->
  lines !! k = Some line ->
  (length line < cap)%nat ->
  Z.of_nat k + 1 < 2147483648 ->
  readFileLine cap sd path (Z.of_nat k + 1)
    = Some ([ReadingLine path (Z.of_nat k + 1); LineRead 1],
            trim (c_string (line ++ ["000"%byte])))
  /\ (Forall (fun c => Byte.eqb c "000"%byte = false) line ->
      readFileLine cap sd path (Z.of_nat k + 1)
      = Some ([ReadingLine path (Z.of_nat k + 1); LineRead 1], trim line)).
Proof.
  intros Hp Hnl Hk Hcap Hrange.
  assert (line_loop cap (unlines lines ++ rest) (Z.of_nat k + 1) []
          = Some ([LineRead 1], trim (c_string (line ++ ["000"%byte]))))
    as E.
  { clear Hp. revert lines Hnl Hk Hrange.
    induction k as [|k IH]; intros lines Hnl Hk Hrange.
    - destruct lines as [|l ls]; [discriminate Hk|].
      injection Hk as ->. inversion Hnl as [|? ? Hl Hls]; subst.
      rewrite unlines_cons, <- app_assoc. cbn [Z.of_nat Z.add].
      rewrite line_loop_store by (cbn; first [exact Hl | lia]).
      cbn [app]. rewrite line_loop_newline_last by (cbn; lia).
      reflexivity.
    - destruct lines as [|l ls]; [discriminate Hk|].
      cbn in Hk. inversion Hnl as [|? ? Hl Hls]; subst.
      rewrite unlines_cons, <- app_assoc.
      rewrite line_loop_skip by (first [exact Hl | lia]).
      cbn [app]. rewrite line_loop_newline_earlier by lia.
      replace (Z.of_nat (S k) + 1 - 1) with (Z.of_nat k + 1) by lia.
      apply IH; [exact Hls | exact Hk | lia]. }
  unfold readFileLine, open. rewrite Hp. cbn [content]. rewrite E.
  split; [reflexivity|].
  intros Hnul. rewrite (c_string_no_nul line Hnul). reflexivity.
Qed.

Lemma readFileLine_returns_line_witness :
  readFileLine 128 wifi_card "/wifi.txt" (Z.of_nat 0 + 1)
    = Some ([ReadingLine "/wifi.txt" 1; LineRead 1],
            list_byte_of_string "HoloNet").
Proof.
  destruct (readFileLine_returns_line 128 wifi_card "/wifi.txt"
              [list_byte_of_string " HoloNet" ++ ["013"%byte]]
              (list_byte_of_string "secret") 0
              (list_byte_of_string " HoloNet" ++ ["013"%byte]))
    as [_ H].
  - reflexivity.
  - repeat constructor.
  - reflexivity.
  - cbn. lia.
  - lia.
  - rewrite H; [reflexivity | repeat constructor].
Defined.

(** A wanted line as long as the buffer or longer: the store of one of its
    characters, or of the terminator, leaves the buffer. *)
Lemma line_loop_overruns (cap : nat) (l rest stored : list byte) :
  Forall (fun c => is_newline c = false) l ->
  (cap <= length stored + length l)%nat ->
  line_loop cap (l ++ "010"%byte :: rest) 1 stored = None.
Proof.
  intros Hl. revert stored.
  induction Hl as [|c l Hc Hl IH]; intros stored Hcap.
  - cbn [app length] in *. rewrite line_loop_cons.
    change (is_newline "010"%byte) with true.
    change (int32 (1 - 1) =? 0) with true. cbv iota.
    destruct (Nat.ltb_spec (length stored) cap); [lia|reflexivity].
  - cbn [app length] in *. rewrite line_loop_cons, Hc. cbn [Z.eqb Pos.eqb].
    destruct (Nat.ltb_spec (length stored) cap); [|reflexivity].
    apply IH. rewrite length_app. cbn [length]. lia.
Qed.

(** X9.  When the wanted line is as long as the member buffer or longer,
    [readFileLine] writes past the end of the buffer: the loop stores the
    line's characters and the terminator without testing the position. *)
Theorem readFileLine_long_line_overruns (cap : nat)
    (sd : gmap string (list byte)) (path : string)
    (lines : list (list byte)) (rest : list byte) (k : nat)
    (line : list byte) :
  sd !! path = Some (unlines lines ++ rest) ->
  Forall (Forall (fun c => is_newline c = false)) lines ->
  lines !! k = Some line ->
  (cap <= length line)%nat ->
  Z.of_nat k + 1 < 2147483648 ->
  readFileLine cap sd path (Z.of_nat k + 1) = None.
Proof.
  intros Hp Hnl Hk Hcap Hrange.
  unfold readFileLine, open. rewrite Hp. cbn [content].
  assert (line_loop cap (unlines lines ++ rest) (Z.of_nat k + 1) [] = None)
    as ->; [|reflexivity].
  clear Hp. revert lines Hnl Hk Hrange.
  induction k as [|k IH]; intros lines Hnl Hk Hrange.
  - destruct lines as [|l ls]; [discriminate Hk|].
    injection Hk as ->. inversion Hnl as [|? ? Hl Hls]; subst.
    rewrite unlines_cons, <- app_assoc. cbn [Z.of_nat Z.add app].
    apply line_loop_overruns; [exact Hl | cbn [length]; lia].
  - destruct lines as [|l ls]; [discriminate Hk|].
    cbn in Hk. inversion Hnl as [|? ? Hl Hls]; subst.
    rewrite unlines_cons, <- app_assoc.
    rewrite line_loop_skip by (first [exact Hl | lia]).
    cbn [app]. rewrite line_loop_newline_earlier by lia.
    replace (Z.of_nat (S k) + 1 - 1) with (Z.of_nat k + 1) by lia.
    apply IH; [exact Hls | exact Hk | lia].
Qed.

Lemma readFileLine_long_line_overruns_witness :
  readFileLine 4 wifi_card "/wifi.txt" (Z.of_nat 0 + 1) = None.
Proof.
  apply (readFileLine_long_line_overruns 4 wifi_card "/wifi.txt"
           [list_byte_of_string " HoloNet" ++ ["013"%byte]]
           (list_byte_of_string "secret") 0
           (list_byte_of_string " HoloNet" ++ ["013"%byte])).
  - reflexivity.
  - repeat constructor.
  - reflexivity.
  - cbn. lia.
  - lia.
Defined.

(** The loop ends without a result when the text runs out first. *)
Lemma line_loop_runs_out (cap : nat) (rest : list byte) (num : Z)
    (stored : list byte) :
  -2147483648 + Z.of_nat (length rest) <= num < 2147483648 ->
  num <= 0 \/ Z.of_nat (newlines rest) < num ->
  num <= 0 \/ Z.of_nat (newlines rest) + 1 < num
    \/ (length stored + length rest <= cap)%nat ->
  line_loop cap rest num stored = Some ([], error_parameter).
Proof.
  revert num stored.
  induction rest as [|c rest IH]; intros num stored Hr Hn Hc; [reflexivity|].
  rewrite line_loop_cons. cbn [length] in Hr, Hc.
  unfold newlines in *. cbn [List.filter] in Hn, Hc.
  destruct (is_newline c) eqn:Ec; cbn [length] in Hn, Hc.
  - rewrite int32_small by lia.
    destruct (Z.eqb_spec (num - 1) 0); [lia|].
    apply IH; lia.
  - destruct (Z.eqb_spec num 1) as [->|Hne].
    + destruct (Nat.ltb_spec (length stored) cap); [|lia].
      apply IH; rewrite ?length_app; cbn [length]; lia.
    + apply IH; lia.
Qed.

(** X10.  [readFileLine] returns "error parameter!" when the line number
    is 0 or negative, and when the file holds fewer newline characters than
    the line number: a last line without a newline at its end is never
    returned.  (The buffer must hold the text when that last line is the
    wanted one, since its characters are stored before the text runs
    out.) *)
Theorem readFileLine_error_parameter (cap : nat)
    (sd : gmap string (list byte)) (path : string) (text : list byte)
    (num : Z) :
  sd !! path = Some text ->
  -2147483648 + Z.of_nat (length text) <= num < 2147483648 ->
  num <= 0 \/ Z.of_nat (newlines text) < num ->
  num <= 0 \/ Z.of_nat (newlines text) + 1 < num
    \/ (length text <= cap)%nat ->
  readFileLine cap sd path num
    = Some ([ReadingLine path num], error_parameter).
Proof.
  intros Hp Hr Hn Hc. unfold readFileLine, open. rewrite Hp. cbn [content].
  rewrite line_loop_runs_out; [reflexivity | exact Hr | exact Hn |].
  cbn [length]. destruct Hc as [?|[?|?]]; auto.
Qed.

Lemma readFileLine_error_parameter_witness :
  readFileLine 128 wifi_card "/wifi.txt" 2
    = Some ([ReadingLine "/wifi.txt" 2], error_parameter).
Proof.
  apply (readFileLine_error_parameter 128 wifi_card "/wifi.txt" wifi_txt 2).
  - reflexivity.
  - cbn. lia.
  - right. cbn. lia.
  - right. right. cbn. lia.
Defined.

(** A block that the room allows whole. *)
Lemma write_block_whole (buf file : list byte) (room : nat) :
  (512 <= length buf)%nat -> (512 <= room)%nat ->
  write_block buf file room = Some (file ++ take 512 buf, (room - 512)%nat).
Proof.
  intros Hb Hr. unfold write_block.
  destruct (Nat.leb_spec 512 (length buf)); [|lia].
  rewrite take_ge by (rewrite length_take; lia). reflexivity.
Qed.

(** [n] blocks that the room allows: the first 512 bytes of [buf], [n]
    times over. *)
Lemma write_blocks_whole (n : nat) (buf file : list byte) (room : nat) :
  (512 <= length buf)%nat -> (n * 512 <= room)%nat ->
  write_blocks n buf file room
    = Some (file ++ concat (replicate n (take 512 buf)),
            (room - n * 512)%nat).
Proof.
  intros Hb. revert file room.
  induction n as [|n IH]; intros file room Hr.
  - cbn. rewrite app_nil_r, Nat.sub_0_r. reflexivity.
  - cbn [write_blocks]. rewrite write_block_whole by lia.
    rewrite IH by lia. cbn [replicate concat].
    rewrite <- app_assoc. do 2 f_equal. lia.
Qed.

Lemma length_concat_replicate (n : nat) (block : list byte) :
  length (concat (replicate n block)) = (n * length block)%nat.
Proof.
  induction n as [|n IH]; [reflexivity|].
  cbn [replicate concat]. rewrite length_app, IH. lia.
Qed.

(** X11.  With a buffer of at least 512 bytes and room on the card,
    [writeBinToSd] leaves a file of 2048 * 512 bytes that is the first 512
    bytes of the buffer 2048 times over: the loop writes from the start of
    the buffer each time and never reads past its first block.  Reading the
    file back with [readBinFromSd] into a destination of that size therefore
    yields this repetition, not a megabyte of the buffer. *)
Theorem writeBinToSd_repeats_first_block (room : nat)
    (sd : gmap string (list byte)) (path : string) (buf dest : list byte) :
  (512 <= length buf)%nat ->
  (2048 * 512 <= room)%nat ->
  (2048 * 512 <= length dest)%nat ->
  let file := concat (replicate 2048 (take 512 buf)) in
  writeBinToSd true room sd path buf
    = ([Writing path; WriteDone], Some (<[path := file]> sd))
  /\ length file = (2048 * 512)%nat
  /\ readBinFromSd (<[path := file]> sd) path dest
     = ([Reading path; FileSize (length file); ReadDone (length file)],
        Some (file ++ drop (length file) dest)).
Proof.
  intros Hb Hr Hd. cbv zeta.
  assert (length (concat (replicate 2048 (take 512 buf))) = (2048 * 512)%nat)
    as Hlen.
  { rewrite length_concat_replicate, length_take. lia. }
  split; [|split].
  - unfold writeBinToSd. rewrite write_blocks_whole by assumption.
    reflexivity.
  - exact Hlen.
  - apply readBinFromSd_found; [apply lookup_insert_eq | lia].
Qed.

Lemma writeBinToSd_repeats_first_block_witness :
  length (concat (replicate 2048 (take 512 (replicate 600 "a"%byte))))
    = (2048 * 512)%nat.
Proof.
  apply (writeBinToSd_repeats_first_block (2048 * 512) wifi_card "/frame.bin"
           (replicate 600 "a"%byte) (replicate (2048 * 512) "z"%byte)).
  - rewrite length_replicate. lia.
  - lia.
  - rewrite length_replicate. lia.
Defined.

End StorageMore.

(* ===================================================================== *)
(** * Further properties: display transfers and brightness *)
(* ===================================================================== *)

Section DisplayMore.

Import Display.

Lemma completions_app (l l' : list flush_op) :
  completions (l ++ l') = (completions l + completions l')%nat.
Proof.
  unfold completions. rewrite List.filter_app, length_app. reflexivity.
Qed.

Lemma pixels_pushed_app (l l' : list flush_op) :
  pixels_pushed (l ++ l') = (pixels_pushed l + pixels_pushed l')%nat.
Proof.
  unfold pixels_pushed. induction l as [|o l IH]; [reflexivity|].
  cbn [app fold_right]. rewrite IH. destruct o; lia.
Qed.

(** X12.  For a region with ordered [int16_t] corners and a pixel buffer
    that holds it, [my_disp_flush] brackets one transfer: it sets the
    window to the region's corner, width and height, pushes exactly
    width * height pixels from the start of the buffer, ends the transfer
    and then signals completion once. *)
Theorem flush_transfers_region (area : lv_area_t) (color_p : list Z)
    (log : list flush_op) :
  -32768 <= x1 area <= x2 area -> x2 area < 32768 ->
  -32768 <= y1 area <= y2 area -> y2 area < 32768 ->
  (x2 area - x1 area + 1) * (y2 area - y1 area + 1)
    <= Z.of_nat (length color_p) ->
  Z.of_nat (length color_p) < 4294967296 ->
  let w := x2 area - x1 area + 1 in
  let h := y2 area - y1 area + 1 in
  exists log',
    my_disp_flush area color_p log = Some log'
    /\ log' = log ++ [startWrite;
                      setAddrWindow (x1 area) (y1 area) w h;
                      pushColors (take (Z.to_nat (w * h)) color_p) true;
                      endWrite;
                      lv_disp_flush_ready]
    /\ completions log' = S (completions log)
    /\ Z.of_nat (pixels_pushed log') = Z.of_nat (pixels_pushed log) + w * h.
Proof.
  intros Hx Hx' Hy Hy' Hfit Hmem. cbv zeta.
  set (w := x2 area - x1 area + 1) in *.
  set (h := y2 area - y1 area + 1) in *.
  assert (1 <= w <= 65536) as Hw by (unfold w; lia).
  assert (1 <= h <= 65536) as Hh by (unfold h; lia).
  assert (0 <= w * h) as Hwh by nia.
  eexists. split; [|split; [reflexivity|]].
  - unfold my_disp_flush. fold w h.
    rewrite (uint32_small w), (uint32_small h) by lia.
    rewrite (uint32_small (w * h)) by lia.
    rewrite (int32_small w), (int32_small h) by lia.
    destruct (Z.leb_spec (w * h) (Z.of_nat (length color_p))); [|lia].
    reflexivity.
  - rewrite completions_app, pixels_pushed_app. cbn.
    rewrite length_take. split; lia.
Qed.

Lemma flush_transfers_region_witness :
  is_Some (my_disp_flush (mk_area 10 20 19 24) (replicate 2400 0) []).
Proof.
  destruct (flush_transfers_region (mk_area 10 20 19 24) (replicate 2400 0) [])
    as (log' & E & _).
  - cbn. lia.
  - cbn. lia.
  - cbn. lia.
  - cbn. lia.
  - rewrite length_replicate. cbn. lia.
  - rewrite length_replicate. lia.
  - rewrite E. eexists. reflexivity.
Defined.

(** X13.  The backlight is driven inverted and the LEDs directly: every
    duty above 1 writes PWM value 0 to the backlight channel and sets the
    LED brightness to 255, every duty below 0 writes 255 and sets the LED
    brightness to 0. *)
Theorem out_of_range_duty_values (d : F32.float) (channel : Z)
    (hw : ledc) (s : Pixel.t) :
  F32.ltb F32.one d = true \/ F32.ltb d F32.zero = true ->
  let above := F32.ltb F32.one d in
  setBackLight channel d hw = (channel, if above then 0 else 255) :: hw
  /\ Pixel.brightness (Pixel.setBrightness d s) = (if above then 255 else 0).
Proof.
  intros [Habove | Hbelow]; cbv zeta.
  - rewrite Habove. unfold setBackLight, Pixel.setBrightness.
    rewrite (constrain_above d Habove). split; reflexivity.
  - assert (F32.ltb F32.one d = false) as ->.
    { destruct (F32.ltb F32.one d) eqn:E; [|reflexivity].
      rewrite (above_not_below d E) in Hbelow. discriminate Hbelow. }
    unfold setBackLight, Pixel.setBrightness.
    rewrite (constrain_below d Hbelow). split; reflexivity.
Qed.

Lemma out_of_range_duty_values_witness :
  setBackLight 0 F32.one_and_a_half [] = [(0, 0)]
  /\ Pixel.brightness (Pixel.setBrightness F32.one_and_a_half Pixel.init)
     = 255.
Proof.
  apply (out_of_range_duty_values F32.one_and_a_half 0 [] Pixel.init).
  left. reflexivity.
Defined.

End DisplayMore.

(* ===================================================================== *)
(** * Further properties: the LED colour buffer *)
(* ===================================================================== *)

Section ColourBufferMore.

Import Pixel.

Lemma uint8_mod (x : Z) : uint8 (x mod 256) = uint8 x.
Proof. unfold uint8. change (2 ^ 8) with 256. apply Z.mod_mod. lia. Qed.

Lemma uint8_add_mul (x k : Z) : uint8 (x + 256 * k) = uint8 x.
Proof.
  unfold uint8. change (2 ^ 8) with 256.
  rewrite Z.mul_comm. apply Z_mod_plus_full.
Qed.

(** X14.  [setRGB] does not clamp its colour components: each is taken
    modulo 256, so components that differ by multiples of 256 give the same
    result, and the entry stored holds the residues. *)
Theorem setRGB_components_wrap (id r g b : Z) (s : Pixel.t) :
  setRGB id r g b s = setRGB id (r mod 256) (g mod 256) (b mod 256) s
  /\ (forall kr kg kb,
        setRGB id (r + 256 * kr) (g + 256 * kg) (b + 256 * kb) s
        = setRGB id r g b s)
  /\ (forall s', setRGB id r g b s = Some s' ->
        color_buffers s' !! Z.to_nat id
        = Some (mkCRGB (r mod 256) (g mod 256) (b mod 256))).
Proof.
  split; [|split].
  - unfold setRGB, CRGB_of. rewrite !uint8_mod. reflexivity.
  - intros kr kg kb. unfold setRGB, CRGB_of. rewrite !uint8_add_mul.
    reflexivity.
  - intros s' E.
    assert (0 <= id < Z.of_nat (length (color_buffers s))) as Hin.
    { unfold setRGB in E.
      destruct (Z.leb_spec 0 id);
        destruct (Z.ltb_spec id (Z.of_nat (length (color_buffers s))));
        cbn in E; try discriminate E. lia. }
    rewrite (setRGB_inside id r g b s Hin) in E. injection E as <-.
    rewrite show_color_buffers. cbn [color_buffers].
    apply list_lookup_insert_eq. lia.
Qed.

(** X15.  Two [setRGB] calls with indices inside the buffer both succeed
    in either order; they leave the brightness alone and send two frames,
    the last of which shows the final buffer; on different LEDs the order
    does not matter for the buffer, on the same LED the later call wins. *)
Theorem setRGB_compose (i j r1 g1 b1 r2 g2 b2 : Z) (s : Pixel.t) :
  0 <= i < Z.of_nat (length (color_buffers s)) ->
  0 <= j < Z.of_nat (length (color_buffers s)) ->
  exists s12 s21 s2,
    setRGB i r1 g1 b1 s ≫= setRGB j r2 g2 b2 = Some s12
    /\ setRGB j r2 g2 b2 s ≫= setRGB i r1 g1 b1 = Some s21
    /\ setRGB j r2 g2 b2 s = Some s2
    /\ brightness s12 = brightness s
    /\ length (shown s12) = S (S (length (shown s)))
    /\ head (shown s12) = Some (brightness s, color_buffers s12)
    /\ (i <> j -> color_buffers s12 = color_buffers s21)
    /\ (i = j -> color_buffers s12 = color_buffers s2).
Proof.
  intros Hi Hj.
  rewrite (setRGB_inside i r1 g1 b1 s Hi), (setRGB_inside j r2 g2 b2 s Hj).
  cbn [mbind option_bind].
  rewrite setRGB_inside
    by (rewrite show_color_buffers; cbn [color_buffers];
        rewrite length_insert; exact Hj).
  rewrite setRGB_inside
    by (rewrite show_color_buffers; cbn [color_buffers];
        rewrite length_insert; exact Hi).
  do 3 eexists. repeat (split; [reflexivity|]).
  cbn. split.
  - intros Hne. apply list_insert_insert_ne. lia.
  - intros ->. apply list_insert_insert_eq.
Qed.

Lemma setRGB_compose_witness :
  is_Some (setRGB 0 0 122 204 Pixel.init ≫= setRGB 1 0 122 204).
Proof.
  destruct (setRGB_compose 0 1 0 122 204 0 122 204 Pixel.init)
    as (s12 & s21 & s2 & E & _).
  - cbn. lia.
  - cbn. lia.
  - rewrite E. eexists. reflexivity.
Defined.

End ColourBufferMore.
